(** * Representation networks of pytorch-gqn: shapes, values and operation order

    A shallow embedding of [building_blocks/representation.py]: the two
    encoders [TowerRepresentation] and [PyramidRepresentation], written over a
    small model of the tensor operations they call ([view], [repeat],
    [torch.cat], [nn.Conv2d], [F.relu], [+], [nn.AvgPool2d]).

    Tensors carry their four sizes and an indexing function; an operation
    that PyTorch rejects with a shape error returns [None].  In module
    [Torch] element values are exact rationals; it carries the statements
    about shapes, data flow and equalities between elements.  Module [F]
    writes the same backend and the same encoders over rationals extended
    with the two infinities and NaN, and carries the statements about the
    sign of an element.  Rounding is outside both. *)

From Stdlib Require Import Arith ZArith QArith Lia ZifyNat List Bool.
Import ListNotations.

Local Open Scope nat_scope.

(* ================================================================== *)
(** * The tensor backend *)
(* ================================================================== *)

Module Torch.

(** ** Tensors *)

(** A four-dimensional tensor (batch, channel, height, width).  [at4] is only
    meaningful below the four sizes. *)
Record Tensor : Type := mkTensor
  { size0 : nat; size1 : nat; size2 : nat; size3 : nat;
    at4 : nat -> nat -> nat -> nat -> Q }.

(** A two-dimensional tensor: the viewpoint batch, one row per element. *)
Record Tensor2 : Type := mkTensor2
  { rows : nat; cols : nat; at2 : nat -> nat -> Q }.

Definition Shape : Type := (nat * nat * nat * nat)%type.
Definition Shape2 : Type := (nat * nat)%type.

Definition shape (t : Tensor) : Shape := (size0 t, size1 t, size2 t, size3 t).
Definition shape2 (v : Tensor2) : Shape2 := (rows v, cols v).

Definition tensor_of (s : Shape) (f : nat -> nat -> nat -> nat -> Q) : Tensor :=
  let '(n, c, h, w) := s in mkTensor n c h w f.

(** Tensors filled with one value, used as concrete inputs. *)
Definition full (s : Shape) (q : Q) : Tensor := tensor_of s (fun _ _ _ _ => q).
Definition full2 (s : Shape2) (q : Q) : Tensor2 :=
  mkTensor2 (fst s) (snd s) (fun _ _ => q).

(** Two tensors are the same tensor when they have the same shape and the
    same element at every index inside that shape. *)
Definition teq (a b : Tensor) : Prop :=
  shape a = shape b /\
  forall n c i j, n < size0 a -> c < size1 a -> i < size2 a -> j < size3 a ->
                  at4 a n c i j = at4 b n c i j.

Definition teq2 (a b : Tensor2) : Prop :=
  shape2 a = shape2 b /\
  forall n c, n < rows a -> c < cols a -> at2 a n c = at2 b n c.

(** ** Operations performed, in order *)

Inductive Op : Type :=
| OpView
| OpRepeat
| OpCat
| OpConv (in_ch out_ch kernel stride padding : nat)
| OpRelu
| OpAdd
| OpAvgPool (kernel : nat).

(** ** The computation monad: a shape error aborts, a success records the
    operations that ran. *)

Definition M (A : Type) : Type := option (A * list Op).

Definition ret {A} (a : A) : M A := Some (a, []).

Definition bind {A B} (m : M A) (f : A -> M B) : M B :=
  match m with
  | None => None
  | Some (a, l1) =>
      match f a with
      | None => None
      | Some (b, l2) => Some (b, l1 ++ l2)
      end
  end.

(** [perform o r]: the backend call [o] with outcome [r]. *)
Definition perform {A} (o : Op) (r : option A) : M A :=
  match r with
  | None => None
  | Some a => Some (a, [o])
  end.

Definition omap {A B} (f : A -> B) (o : option A) : option B :=
  match o with Some a => Some (f a) | None => None end.

Definition obind {A B} (o : option A) (f : A -> option B) : option B :=
  match o with Some a => f a | None => None end.

(** ** Finite sums of rationals *)

Fixpoint sum_n (n : nat) (f : nat -> Q) : Q :=
  match n with
  | O => 0%Q
  | S m => (sum_n m f + f m)%Q
  end.

(** ** [Tensor.view(n, -1, 1, 1)] on a contiguous two-dimensional tensor.

    The inferred size is [numel / n]; PyTorch raises when [n] is zero (the
    inferred size is ambiguous or the shape invalid) and when [n] does not
    divide the number of elements. *)

Definition flat (v : Tensor2) (k : nat) : Q := at2 v (k / cols v) (k mod cols v).

Definition view_shape (n : nat) (s : Shape2) : option Shape :=
  let numel := fst s * snd s in
  if n =? 0 then None
  else if numel mod n =? 0 then Some (n, numel / n, 1, 1)
  else None.

Definition view_fn (n : nat) (v : Tensor2) : option Tensor :=
  omap (fun s => tensor_of s (fun b c _ _ => flat v (b * (rows v * cols v / n) + c)))
       (view_shape n (shape2 v)).

Definition view (n : nat) (v : Tensor2) : M Tensor := perform OpView (view_fn n v).

(** ** [Tensor.repeat(r0, r1, r2, r3)]: tiling, every size is multiplied and
    element [i] of the result is element [i mod size] of the argument. *)

Definition repeat_shape (r : Shape) (s : Shape) : Shape :=
  let '(r0, r1, r2, r3) := r in
  let '(n, c, h, w) := s in (n * r0, c * r1, h * r2, w * r3).

Definition repeat_fn (r : Shape) (x : Tensor) : option Tensor :=
  Some (tensor_of (repeat_shape r (shape x))
          (fun n c i j => at4 x (n mod size0 x) (c mod size1 x)
                                (i mod size2 x) (j mod size3 x))).

Definition repeat (r : Shape) (x : Tensor) : M Tensor :=
  perform OpRepeat (repeat_fn r x).

(** ** [torch.cat((a, b), dim=1)]: all sizes but the channel size must agree. *)

Definition cat_shape (a b : Shape) : option Shape :=
  let '(n, c, h, w) := a in
  let '(n', c', h', w') := b in
  if (n =? n') && (h =? h') && (w =? w') then Some (n, c + c', h, w) else None.

Definition cat_fn (a b : Tensor) : option Tensor :=
  omap (fun s => tensor_of s
          (fun n c i j => if c <? size1 a then at4 a n c i j
                          else at4 b n (c - size1 a) i j))
       (cat_shape (shape a) (shape b)).

Definition cat (a b : Tensor) : M Tensor := perform OpCat (cat_fn a b).

(** ** [nn.Conv2d] (square kernel, groups = 1, dilation = 1, zero padding) *)

Record Conv2d : Type := mkConv2d
  { in_channels : nat; out_channels : nat;
    kernel_size : nat; stride : nat; padding : nat;
    weight : nat -> nat -> nat -> nat -> Q;   (* [out][in][kh][kw] *)
    bias : nat -> Q }.

(** Output extent of one spatial axis. *)
Definition conv_out (n k s p : nat) : nat := (n + 2 * p - k) / s + 1.

(** The forward call raises when the input has the wrong number of
    channels, when the layer has no input or no output channel, and when the
    kernel exceeds the padded input. *)
Definition conv2d_shape (m : Conv2d) (s : Shape) : option Shape :=
  let '(n, c, h, w) := s in
  if (c =? in_channels m) && (1 <=? in_channels m) && (1 <=? out_channels m)
     && (1 <=? kernel_size m) && (1 <=? stride m)
     && (kernel_size m <=? h + 2 * padding m)
     && (kernel_size m <=? w + 2 * padding m)
  then Some (n, out_channels m,
             conv_out h (kernel_size m) (stride m) (padding m),
             conv_out w (kernel_size m) (stride m) (padding m))
  else None.

(** The input seen through its zero border of width [p]. *)
Definition padded (x : Tensor) (p : nat) (n c i j : nat) : Q :=
  if (p <=? i) && (i <? size2 x + p) && (p <=? j) && (j <? size3 x + p)
  then at4 x n c (i - p) (j - p) else 0%Q.

Definition conv2d_val (m : Conv2d) (x : Tensor) (n o i j : nat) : Q :=
  (bias m o +
   sum_n (in_channels m) (fun c =>
     sum_n (kernel_size m) (fun di =>
       sum_n (kernel_size m) (fun dj =>
         weight m o c di dj *
         padded x (padding m) n c (i * stride m + di) (j * stride m + dj)))))%Q.

Definition conv2d_fn (m : Conv2d) (x : Tensor) : option Tensor :=
  omap (fun s => tensor_of s (conv2d_val m x)) (conv2d_shape m (shape x)).

Definition conv2d (m : Conv2d) (x : Tensor) : M Tensor :=
  perform (OpConv (in_channels m) (out_channels m) (kernel_size m)
                  (stride m) (padding m))
          (conv2d_fn m x).

(** ** [F.relu] *)

Definition relu1 (q : Q) : Q := if Qle_bool 0 q then q else 0%Q.

Definition relu_fn (x : Tensor) : option Tensor :=
  Some (tensor_of (shape x) (fun n c i j => relu1 (at4 x n c i j))).

Definition relu (x : Tensor) : M Tensor := perform OpRelu (relu_fn x).

(** ** Elementwise [a + b], with broadcasting of sizes equal to one *)

Definition bdim (a b : nat) : option nat :=
  if a =? b then Some a
  else if a =? 1 then Some b
  else if b =? 1 then Some a
  else None.

Definition bidx (size i : nat) : nat := if size =? 1 then 0 else i.

Definition add_shape (a b : Shape) : option Shape :=
  let '(n, c, h, w) := a in
  let '(n', c', h', w') := b in
  obind (bdim n n') (fun d0 =>
  obind (bdim c c') (fun d1 =>
  obind (bdim h h') (fun d2 =>
  obind (bdim w w') (fun d3 => Some (d0, d1, d2, d3))))).

Definition bat (x : Tensor) (n c i j : nat) : Q :=
  at4 x (bidx (size0 x) n) (bidx (size1 x) c) (bidx (size2 x) i) (bidx (size3 x) j).

Definition add_fn (a b : Tensor) : option Tensor :=
  omap (fun s => tensor_of s (fun n c i j => (bat a n c i j + bat b n c i j)%Q))
       (add_shape (shape a) (shape b)).

Definition add (a b : Tensor) : M Tensor := perform OpAdd (add_fn a b).

(** ** [nn.AvgPool2d(k)]: window and stride [k], no padding, floor mode *)

Record AvgPool2d : Type := mkAvgPool2d { pool_kernel : nat }.

Definition avg_pool_shape (p : AvgPool2d) (s : Shape) : option Shape :=
  let '(n, c, h, w) := s in
  let k := pool_kernel p in
  if (1 <=? k) && (k <=? h) && (k <=? w)
  then Some (n, c, (h - k) / k + 1, (w - k) / k + 1)
  else None.

Definition avg_pool_val (p : AvgPool2d) (x : Tensor) (n c i j : nat) : Q :=
  let k := pool_kernel p in
  (sum_n k (fun di => sum_n k (fun dj => at4 x n c (i * k + di) (j * k + dj)))
   / inject_Z (Z.of_nat (k * k)))%Q.

Definition avg_pool2d_fn (p : AvgPool2d) (x : Tensor) : option Tensor :=
  omap (fun s => tensor_of s (avg_pool_val p x)) (avg_pool_shape p (shape x)).

Definition avg_pool2d (p : AvgPool2d) (x : Tensor) : M Tensor :=
  perform (OpAvgPool (pool_kernel p)) (avg_pool2d_fn p x).

End Torch.

Import Torch.

Declare Scope torch_scope.
Notation "x <- m ;; k" := (bind m (fun x => k))
  (at level 61, m at next level, right associativity) : torch_scope.
Local Open Scope torch_scope.

(** [F.relu(conv(x))], the pattern every layer of both encoders follows. *)
Definition conv_relu (m : Conv2d) (x : Tensor) : M Tensor :=
  c <- conv2d m x ;; relu c.

(* ================================================================== *)
(** * The two encoders *)
(* ================================================================== *)

(** The learned parameters of one convolution.  [nn.Conv2d] draws them at
    random on construction and an optimiser updates them; here they are an
    argument of the constructor. *)
Record ConvParams : Type := mkConvParams
  { p_weight : nat -> nat -> nat -> nat -> Q; p_bias : nat -> Q }.

(** [nn.Conv2d(in, out, kernel_size=k, stride=s, padding=p)] *)
Definition nn_Conv2d (inc outc k s p : nat) (th : ConvParams) : Conv2d :=
  mkConv2d inc outc k s p (p_weight th) (p_bias th).

Module TowerRepresentation.

Record t : Type := mk
  { r_dim : nat; pool : bool;
    conv1 : Conv2d; conv2 : Conv2d; conv3 : Conv2d; conv4 : Conv2d;
    conv5 : Conv2d; conv6 : Conv2d; conv7 : Conv2d; conv8 : Conv2d;
    avgpool : AvgPool2d }.

(** [__init__(self, n_channels, v_dim, r_dim=256, pool=True)];
    [th i] holds the parameters of [conv i].  Building the layers checks
    nothing about the tensors to come: every mismatch shows in [forward]. *)
Definition init (n_channels v_dim r_dim : nat) (pool : bool)
                (th : nat -> ConvParams) : t :=
  let k := r_dim in
  {| r_dim := k;
     pool := pool;
     conv1 := nn_Conv2d n_channels k 2 2 0 (th 1);
     conv2 := nn_Conv2d k k 2 2 0 (th 2);
     conv3 := nn_Conv2d k (k / 2) 3 1 1 (th 3);
     conv4 := nn_Conv2d (k / 2) k 2 2 0 (th 4);
     conv5 := nn_Conv2d (k + v_dim) k 3 1 1 (th 5);
     conv6 := nn_Conv2d (k + v_dim) (k / 2) 3 1 1 (th 6);
     conv7 := nn_Conv2d (k / 2) k 3 1 1 (th 7);
     conv8 := nn_Conv2d k k 1 1 0 (th 8);
     avgpool := mkAvgPool2d (k / 16) |}.

(** Lines 69-70: the viewpoint, reshaped and tiled. *)
Definition broadcast_viewpoint (self : t) (v : Tensor2) : M Tensor :=
  v <- view (rows v) v ;;
  repeat (1, 1, r_dim self / 16, r_dim self / 16) v.

(** Lines 73-77: the first skip-connected block. *)
Definition block1 (self : t) (x : Tensor) : M Tensor :=
  skip_in <- conv_relu (conv1 self) x ;;
  skip_out <- conv_relu (conv2 self) skip_in ;;
  x <- conv_relu (conv3 self) skip_in ;;
  a <- conv_relu (conv4 self) x ;;
  add a skip_out.

(** Lines 69-80: everything up to the tensor that enters the second block. *)
Definition merged (self : t) (x : Tensor) (v : Tensor2) : M Tensor :=
  v <- broadcast_viewpoint self v ;;
  x <- block1 self x ;;
  cat x v.

(** Lines 81-84: the second skip-connected block, on the merged tensor. *)
Definition block2 (self : t) (skip_in : Tensor) : M Tensor :=
  skip_out <- conv_relu (conv5 self) skip_in ;;
  x <- conv_relu (conv6 self) skip_in ;;
  a <- conv_relu (conv7 self) x ;;
  add a skip_out.

(** Lines 86-91: the 1 x 1 projection and the optional pooling. *)
Definition head (self : t) (x : Tensor) : M Tensor :=
  r <- conv_relu (conv8 self) x ;;
  if pool self then avg_pool2d (avgpool self) r else ret r.

(** [forward(self, x, v)], lines 67-91. *)
Definition forward (self : t) (x : Tensor) (v : Tensor2) : M Tensor :=
  skip_in <- merged self x v ;;
  x <- block2 self skip_in ;;
  head self x.

(** *** The same program on shapes alone *)

Definition broadcast_viewpoint_shape (self : t) (sv : Shape2) : option Shape :=
  obind (view_shape (fst sv) sv) (fun s =>
  Some (repeat_shape (1, 1, r_dim self / 16, r_dim self / 16) s)).

Definition block1_shape (self : t) (sx : Shape) : option Shape :=
  obind (conv2d_shape (conv1 self) sx) (fun skip_in =>
  obind (conv2d_shape (conv2 self) skip_in) (fun skip_out =>
  obind (conv2d_shape (conv3 self) skip_in) (fun x =>
  obind (conv2d_shape (conv4 self) x) (fun a =>
  add_shape a skip_out)))).

Definition merged_shape (self : t) (sx : Shape) (sv : Shape2) : option Shape :=
  obind (broadcast_viewpoint_shape self sv) (fun v =>
  obind (block1_shape self sx) (fun x =>
  cat_shape x v)).

Definition block2_shape (self : t) (skip_in : Shape) : option Shape :=
  obind (conv2d_shape (conv5 self) skip_in) (fun skip_out =>
  obind (conv2d_shape (conv6 self) skip_in) (fun x =>
  obind (conv2d_shape (conv7 self) x) (fun a =>
  add_shape a skip_out))).

Definition head_shape (self : t) (x : Shape) : option Shape :=
  obind (conv2d_shape (conv8 self) x) (fun r =>
  if pool self then avg_pool_shape (avgpool self) r else Some r).

Definition forward_shape (self : t) (sx : Shape) (sv : Shape2) : option Shape :=
  obind (merged_shape self sx sv) (fun skip_in =>
  obind (block2_shape self skip_in) (fun x =>
  head_shape self x)).

End TowerRepresentation.

Module PyramidRepresentation.

Record t : Type := mk
  { r_dim : nat;
    conv1 : Conv2d; conv2 : Conv2d; conv3 : Conv2d; conv4 : Conv2d }.

(** [__init__(self, n_channels, v_dim, r_dim=256)] *)
Definition init (n_channels v_dim r_dim : nat) (th : nat -> ConvParams) : t :=
  let k := r_dim in
  {| r_dim := k;
     conv1 := nn_Conv2d (n_channels + v_dim) (k / 8) 2 2 0 (th 1);
     conv2 := nn_Conv2d (k / 8) (k / 4) 2 2 0 (th 2);
     conv3 := nn_Conv2d (k / 4) (k / 2) 2 2 0 (th 3);
     conv4 := nn_Conv2d (k / 2) k 8 8 0 (th 4) |}.

(** [forward(self, x, v)], lines 129-144. *)
Definition forward (self : t) (x : Tensor) (v : Tensor2) : M Tensor :=
  let '(batch_size, _, h, w) := shape x in
  v <- view batch_size v ;;
  v <- repeat (1, 1, h, w) v ;;
  r <- cat x v ;;
  r <- conv_relu (conv1 self) r ;;
  r <- conv_relu (conv2 self) r ;;
  r <- conv_relu (conv3 self) r ;;
  r <- conv_relu (conv4 self) r ;;
  ret r.

Definition forward_shape (self : t) (sx : Shape) (sv : Shape2) : option Shape :=
  let '(batch_size, _, h, w) := sx in
  obind (view_shape batch_size sv) (fun v =>
  obind (Some (repeat_shape (1, 1, h, w) v)) (fun v =>
  obind (cat_shape sx v) (fun r =>
  obind (conv2d_shape (conv1 self) r) (fun r =>
  obind (conv2d_shape (conv2 self) r) (fun r =>
  obind (conv2d_shape (conv3 self) r) (fun r =>
  obind (conv2d_shape (conv4 self) r) (fun r =>
  Some r))))))).

End PyramidRepresentation.

(* ================================================================== *)
(** * Observing runs *)
(* ================================================================== *)

(** The shape of the result of a run, when there is one. *)
Definition shape_of (m : M Tensor) : option Shape :=
  omap (fun r => shape (fst r)) m.

(** The inputs [TowerRepresentation.forward] accepts: a viewpoint with one
    row per image and v_dim entries per row, an image with n_channels
    channels and at least 4 x 4 pixels whose quarter-size equals
    r_dim // 16. *)
Definition tower_ok (n vd k : nat) (sx : Shape) (sv : Shape2) : bool :=
  let '(B, C, H, W) := sx in
  let '(R, V) := sv in
  (1 <=? R) && (B =? R) && (C =? n) && (1 <=? n) && (V =? vd) && (2 <=? k)
  && (4 <=? H) && (4 <=? W) && (H / 4 =? k / 16) && (W / 4 =? k / 16).

(** The inputs [PyramidRepresentation.forward] accepts: a non-empty batch
    that divides the viewpoint's entries, n_channels + v_dim channels after
    merging, r_dim >= 8 and an image of at least 64 x 64 pixels. *)
Definition pyramid_ok (n vd k : nat) (sx : Shape) (sv : Shape2) : bool :=
  let '(B, C, H, W) := sx in
  let '(R, V) := sv in
  (1 <=? B) && ((R * V) mod B =? 0) && (C + R * V / B =? n + vd)
  && (1 <=? n + vd) && (8 <=? k) && (64 <=? H) && (64 <=? W).

(** Stride and output depth of the convolutions of a run, in order. *)
Fixpoint convs (tr : list Op) : list (nat * nat) :=
  match tr with
  | [] => []
  | OpConv _ o _ s _ :: tr' => (s, o) :: convs tr'
  | _ :: tr' => convs tr'
  end.

(** Every convolution of the run is directly followed by a [relu]. *)
Fixpoint relu_after_each_conv (tr : list Op) : bool :=
  match tr with
  | [] => true
  | OpConv _ _ _ _ _ :: tr' =>
      match tr' with
      | OpRelu :: _ => relu_after_each_conv tr'
      | _ => false
      end
  | _ :: tr' => relu_after_each_conv tr'
  end.

Definition is_add (o : Op) : bool := match o with OpAdd => true | _ => false end.
Definition is_pool (o : Op) : bool :=
  match o with OpAvgPool _ => true | _ => false end.

(** Concrete learned parameters: every weight one, every bias zero. *)
Definition ones (i : nat) : ConvParams :=
  mkConvParams (fun _ _ _ _ => 1%Q) (fun _ => 0%Q).

(** The 2 x 2 image [[1, 2], [3, 4]] and the viewpoint [[0, 1, 2, ...]]. *)
Definition x22 : Tensor :=
  mkTensor 1 1 2 2 (fun _ _ i j => inject_Z (Z.of_nat (1 + 2 * i + j))).
Definition v_ramp (n : nat) : Tensor2 :=
  mkTensor2 1 n (fun _ c => inject_Z (Z.of_nat c)).

(** One element of the result of a run, in lowest terms. *)
Definition result_at (m : M Tensor) (b c i j : nat) : option Q :=
  match m with Some (r, _) => Some (Qred (at4 r b c i j)) | None => None end.

(** Lines 131-137 of [PyramidRepresentation.forward]: the viewpoint viewed,
    tiled over the whole image and concatenated after the image channels. *)
Definition pyramid_merged (x : Tensor) (v : Tensor2) : M Tensor :=
  let '(batch_size, _, h, w) := shape x in
  v <- view batch_size v ;;
  v <- repeat (1, 1, h, w) v ;;
  cat x v.

(** Lines 139-144: the four strided layers. *)
Definition pyramid_layers (self : PyramidRepresentation.t) (r : Tensor) : M Tensor :=
  r <- conv_relu (PyramidRepresentation.conv1 self) r ;;
  r <- conv_relu (PyramidRepresentation.conv2 self) r ;;
  r <- conv_relu (PyramidRepresentation.conv3 self) r ;;
  r <- conv_relu (PyramidRepresentation.conv4 self) r ;;
  ret r.

(** One element of a batch, kept as a batch of one: [x[b:b+1]]. *)
Definition select (b : nat) (x : Tensor) : Tensor :=
  mkTensor 1 (size1 x) (size2 x) (size3 x) (fun n c i j => at4 x (b + n) c i j).

Definition select2 (b : nat) (v : Tensor2) : Tensor2 :=
  mkTensor2 1 (cols v) (fun n c => at2 v (b + n) c).

(** [y'] is element [b] of the batch [y]. *)
Definition sliced (b : nat) (y' y : Tensor) : Prop :=
  b < size0 y /\ teq y' (select b y).

(** Whenever the run on the batch succeeds, the run on element [b] succeeds
    with the same operations and returns element [b] of the result. *)
Definition Mslice (b : nat) (m' m : M Tensor) : Prop :=
  forall y l, m = Some (y, l) -> exists y', m' = Some (y', l) /\ sliced b y' y.

(** A spatial window of a tensor: [x[:, :, i0:i0+h, j0:j0+w]]. *)
Definition crop (i0 j0 h w : nat) (x : Tensor) : Tensor :=
  mkTensor (size0 x) (size1 x) h w (fun n c i j => at4 x n c (i0 + i) (j0 + j)).

(** [y'] is the window of [y] at [(i0, j0)], which lies inside [y]. *)
Definition cropped (i0 j0 h w : nat) (y' y : Tensor) : Prop :=
  i0 + h <= size2 y /\ j0 + w <= size3 y /\ teq y' (crop i0 j0 h w y).

(** Whenever the run on the whole tensor succeeds, the run on the window
    succeeds with the same operations and returns the window of the result. *)
Definition Mcrop (i0 j0 h w : nat) (m' m : M Tensor) : Prop :=
  forall y l, m = Some (y, l) ->
              exists y', m' = Some (y', l) /\ cropped i0 j0 h w y' y.

(** Same layer: same configuration, same weights and biases inside it. *)
Definition conv_eq (m m' : Conv2d) : Prop :=
  in_channels m = in_channels m' /\ out_channels m = out_channels m'
  /\ kernel_size m = kernel_size m' /\ stride m = stride m'
  /\ padding m = padding m'
  /\ (forall o c di dj, o < out_channels m -> c < in_channels m ->
        di < kernel_size m -> dj < kernel_size m ->
        weight m o c di dj = weight m' o c di dj)
  /\ (forall o, o < out_channels m -> bias m o = bias m' o).

(** Same outcome: both runs raise, or both return the same tensor after the
    same operations. *)
Definition Meq (m m' : M Tensor) : Prop :=
  match m, m' with
  | Some (a, l), Some (a', l') => teq a a' /\ l = l'
  | None, None => True
  | _, _ => False
  end.

Definition tower_eq (s s' : TowerRepresentation.t) : Prop :=
  TowerRepresentation.r_dim s = TowerRepresentation.r_dim s'
  /\ TowerRepresentation.pool s = TowerRepresentation.pool s'
  /\ conv_eq (TowerRepresentation.conv1 s) (TowerRepresentation.conv1 s')
  /\ conv_eq (TowerRepresentation.conv2 s) (TowerRepresentation.conv2 s')
  /\ conv_eq (TowerRepresentation.conv3 s) (TowerRepresentation.conv3 s')
  /\ conv_eq (TowerRepresentation.conv4 s) (TowerRepresentation.conv4 s')
  /\ conv_eq (TowerRepresentation.conv5 s) (TowerRepresentation.conv5 s')
  /\ conv_eq (TowerRepresentation.conv6 s) (TowerRepresentation.conv6 s')
  /\ conv_eq (TowerRepresentation.conv7 s) (TowerRepresentation.conv7 s')
  /\ conv_eq (TowerRepresentation.conv8 s) (TowerRepresentation.conv8 s')
  /\ TowerRepresentation.avgpool s = TowerRepresentation.avgpool s'.

Definition pyramid_eq (s s' : PyramidRepresentation.t) : Prop :=
  PyramidRepresentation.r_dim s = PyramidRepresentation.r_dim s'
  /\ conv_eq (PyramidRepresentation.conv1 s) (PyramidRepresentation.conv1 s')
  /\ conv_eq (PyramidRepresentation.conv2 s) (PyramidRepresentation.conv2 s')
  /\ conv_eq (PyramidRepresentation.conv3 s) (PyramidRepresentation.conv3 s')
  /\ conv_eq (PyramidRepresentation.conv4 s) (PyramidRepresentation.conv4 s').

(* ================================================================== *)
(** * The operations in the words of the specification *)
(* ================================================================== *)

(** These definitions do not come from the code.  They say, element by
    element, what the specification's vocabulary means: a rectified-linear
    nonlinearity, a strided convolution, a padded 3 x 3 convolution, an
    elementwise sum, a concatenation along the channels, a viewpoint
    broadcast over the spatial extent, and a spatial mean.  The refinement
    theorems compare the tensors the code computes with them. *)

(** [y] is the rectified-linear image of [z]: [z] where [z >= 0], zero
    where [z < 0]. *)
Definition spec_rectified (z y : Q) : Prop :=
  ((0 <= z)%Q -> y = z) /\ ((z < 0)%Q -> y = 0%Q).

(** Output element [(b, o, i, j)] of an unpadded convolution whose [s x s]
    windows do not overlap: bias plus the weighted sum over the input
    channels and over the window with corner [(s * i, s * j)]. *)
Definition spec_strided_conv (th : ConvParams) (cin s : nat) (x : Tensor)
                             (b o i j : nat) : Q :=
  (p_bias th o +
   sum_n cin (fun c => sum_n s (fun di => sum_n s (fun dj =>
     p_weight th o c di dj * at4 x b c (s * i + di) (s * j + dj)))))%Q.

(** [y] is the rectified strided convolution of [x]: [cin] input channels,
    [cout] output channels, spatial extents divided by [s]. *)
Definition spec_layer (th : ConvParams) (cin cout s : nat) (x y : Tensor) : Prop :=
  size1 x = cin
  /\ shape y = (size0 x, cout, size2 x / s, size3 x / s)
  /\ forall b o i j, b < size0 y -> o < cout -> i < size2 y -> j < size3 y ->
       spec_rectified (spec_strided_conv th cin s x b o i j) (at4 y b o i j).

(** The image [x] surrounded by one ring of zeros, read at row [r] and
    column [s] of the enlarged image. *)
Definition spec_zero_border (x : Tensor) (b c r s : nat) : Q :=
  if (1 <=? r) && (r <=? size2 x) && (1 <=? s) && (s <=? size3 x)
  then at4 x b c (r - 1) (s - 1) else 0%Q.

(** Output element of a 3 x 3 convolution of stride 1 on the bordered
    image. *)
Definition spec_same_conv (th : ConvParams) (cin : nat) (x : Tensor)
                          (b o i j : nat) : Q :=
  (p_bias th o +
   sum_n cin (fun c => sum_n 3 (fun di => sum_n 3 (fun dj =>
     p_weight th o c di dj * spec_zero_border x b c (i + di) (j + dj)))))%Q.

(** [y] is the rectified 3 x 3 convolution of [x], of the same spatial
    extents as [x]. *)
Definition spec_same_layer (th : ConvParams) (cin cout : nat) (x y : Tensor) : Prop :=
  size1 x = cin
  /\ shape y = (size0 x, cout, size2 x, size3 x)
  /\ forall b o i j, b < size0 y -> o < cout -> i < size2 y -> j < size3 y ->
       spec_rectified (spec_same_conv th cin x b o i j) (at4 y b o i j).

(** [y] is the elementwise sum of two tensors of its own shape. *)
Definition spec_sum (a b y : Tensor) : Prop :=
  shape a = shape y /\ shape b = shape y
  /\ forall n c i j, n < size0 y -> c < size1 y -> i < size2 y -> j < size3 y ->
       at4 y n c i j = (at4 a n c i j + at4 b n c i j)%Q.

(** [y] holds the channels of [a] followed by the channels of [b]. *)
Definition spec_cat (a b y : Tensor) : Prop :=
  shape y = (size0 a, size1 a + size1 b, size2 a, size3 a)
  /\ (size0 b, size2 b, size3 b) = (size0 a, size2 a, size3 a)
  /\ forall n c i j, n < size0 y -> i < size2 y -> j < size3 y ->
       (c < size1 a -> at4 y n c i j = at4 a n c i j)
       /\ (c < size1 b -> at4 y n (size1 a + c) i j = at4 b n c i j).

(** [y] holds component [c] of the viewpoint of batch element [n] at every
    position of an [e x e] grid. *)
Definition spec_broadcast (v : Tensor2) (e : nat) (y : Tensor) : Prop :=
  shape y = (rows v, cols v, e, e)
  /\ forall n c i j, n < rows v -> c < cols v -> i < e -> j < e ->
       at4 y n c i j = at2 v n c.

(** [r] holds, per batch element and channel, the mean of [z] over all its
    spatial positions. *)
Definition spec_mean (z r : Tensor) : Prop :=
  shape r = (size0 z, size1 z, 1, 1)
  /\ forall n c, n < size0 z -> c < size1 z ->
       at4 r n c 0 0
       = (sum_n (size2 z) (fun i => sum_n (size3 z) (fun j => at4 z n c i j))
          / inject_Z (Z.of_nat (size2 z * size3 z)))%Q.

(* ================================================================== *)
(** * The encoders over values that can be infinite or not a number *)
(* ================================================================== *)

(** The tensors of the program hold floating-point numbers.  The sign of an
    element is decided there by three values the rationals lack: the two
    infinities and NaN.  This module writes the same backend and the same
    two encoders over rationals extended with them; finite arithmetic stays
    exact (rounding and overflow are not modelled), the special values
    follow IEEE 754: NaN is absorbing, [inf - inf] and [0 * inf] are NaN. *)

Module F.

Inductive fval : Type := Fin (q : Q) | PInf | NInf | NaN.

Definition fadd (a b : fval) : fval :=
  match a, b with
  | NaN, _ | _, NaN => NaN
  | PInf, NInf | NInf, PInf => NaN
  | PInf, _ | _, PInf => PInf
  | NInf, _ | _, NInf => NInf
  | Fin x, Fin y => Fin (x + y)
  end.

(** [sign_times x v]: the infinity [v] multiplied by the finite [x]. *)
Definition sign_times (x : Q) (pos neg : fval) : fval :=
  match (0 ?= x)%Q with
  | Lt => pos
  | Gt => neg
  | Eq => NaN
  end.

Definition fmul (a b : fval) : fval :=
  match a, b with
  | NaN, _ | _, NaN => NaN
  | Fin x, Fin y => Fin (x * y)
  | Fin x, PInf | PInf, Fin x => sign_times x PInf NInf
  | Fin x, NInf | NInf, Fin x => sign_times x NInf PInf
  | PInf, PInf | NInf, NInf => PInf
  | PInf, NInf | NInf, PInf => NInf
  end.

(** Division by a window size, which is at least one wherever it is used. *)
Definition fdiv_nat (a : fval) (n : nat) : fval :=
  match a with
  | Fin x => Fin (x / inject_Z (Z.of_nat n))
  | v => v
  end.

(** [F.relu] on one element: NaN stays NaN. *)
Definition relu1 (a : fval) : fval :=
  match a with
  | NaN => NaN
  | PInf => PInf
  | NInf => Fin 0
  | Fin x => Fin (if Qle_bool 0 x then x else 0)
  end.



Record Tensor : Type := mkTensor
  { size0 : nat; size1 : nat; size2 : nat; size3 : nat;
    at4 : nat -> nat -> nat -> nat -> fval }.

Record Tensor2 : Type := mkTensor2
  { rows : nat; cols : nat; at2 : nat -> nat -> fval }.

Definition shape (t : Tensor) : Shape := (size0 t, size1 t, size2 t, size3 t).
Definition shape2 (v : Tensor2) : Shape2 := (rows v, cols v).

Definition tensor_of (s : Shape) (f : nat -> nat -> nat -> nat -> fval) : Tensor :=
  let '(n, c, h, w) := s in mkTensor n c h w f.

Definition full (s : Shape) (a : fval) : Tensor := tensor_of s (fun _ _ _ _ => a).
Definition full2 (s : Shape2) (a : fval) : Tensor2 :=
  mkTensor2 (fst s) (snd s) (fun _ _ => a).

Fixpoint sum_n (n : nat) (f : nat -> fval) : fval :=
  match n with
  | O => Fin 0
  | S m => fadd (sum_n m f) (f m)
  end.

Definition flat (v : Tensor2) (k : nat) : fval := at2 v (k / cols v) (k mod cols v).

Definition view_fn (n : nat) (v : Tensor2) : option Tensor :=
  omap (fun s => tensor_of s (fun b c _ _ => flat v (b * (rows v * cols v / n) + c)))
       (view_shape n (shape2 v)).

Definition view (n : nat) (v : Tensor2) : M Tensor := perform OpView (view_fn n v).

Definition repeat_fn (r : Shape) (x : Tensor) : option Tensor :=
  Some (tensor_of (repeat_shape r (shape x))
          (fun n c i j => at4 x (n mod size0 x) (c mod size1 x)
                                (i mod size2 x) (j mod size3 x))).

Definition repeat (r : Shape) (x : Tensor) : M Tensor :=
  perform OpRepeat (repeat_fn r x).

Definition cat_fn (a b : Tensor) : option Tensor :=
  omap (fun s => tensor_of s
          (fun n c i j => if c <? size1 a then at4 a n c i j
                          else at4 b n (c - size1 a) i j))
       (cat_shape (shape a) (shape b)).

Definition cat (a b : Tensor) : M Tensor := perform OpCat (cat_fn a b).

Record Conv2d : Type := mkConv2d
  { in_channels : nat; out_channels : nat;
    kernel_size : nat; stride : nat; padding : nat;
    weight : nat -> nat -> nat -> nat -> fval;
    bias : nat -> fval }.

(** The layer without its parameters, for the shape check it shares with
    the rational backend. *)
Definition config (m : Conv2d) : Torch.Conv2d :=
  Torch.mkConv2d (in_channels m) (out_channels m) (kernel_size m) (stride m)
                 (padding m) (fun _ _ _ _ => 0%Q) (fun _ => 0%Q).

Definition padded (x : Tensor) (p : nat) (n c i j : nat) : fval :=
  if (p <=? i) && (i <? size2 x + p) && (p <=? j) && (j <? size3 x + p)
  then at4 x n c (i - p) (j - p) else Fin 0.

Definition conv2d_val (m : Conv2d) (x : Tensor) (n o i j : nat) : fval :=
  fadd (bias m o)
    (sum_n (in_channels m) (fun c =>
       sum_n (kernel_size m) (fun di =>
         sum_n (kernel_size m) (fun dj =>
           fmul (weight m o c di dj)
                (padded x (padding m) n c (i * stride m + di) (j * stride m + dj)))))).

Definition conv2d_fn (m : Conv2d) (x : Tensor) : option Tensor :=
  omap (fun s => tensor_of s (conv2d_val m x)) (conv2d_shape (config m) (shape x)).

Definition conv2d (m : Conv2d) (x : Tensor) : M Tensor :=
  perform (OpConv (in_channels m) (out_channels m) (kernel_size m)
                  (stride m) (padding m))
          (conv2d_fn m x).

Definition relu_fn (x : Tensor) : option Tensor :=
  Some (tensor_of (shape x) (fun n c i j => relu1 (at4 x n c i j))).

Definition relu (x : Tensor) : M Tensor := perform OpRelu (relu_fn x).

Definition bat (x : Tensor) (n c i j : nat) : fval :=
  at4 x (bidx (size0 x) n) (bidx (size1 x) c) (bidx (size2 x) i) (bidx (size3 x) j).

Definition add_fn (a b : Tensor) : option Tensor :=
  omap (fun s => tensor_of s (fun n c i j => fadd (bat a n c i j) (bat b n c i j)))
       (add_shape (shape a) (shape b)).

Definition add (a b : Tensor) : M Tensor := perform OpAdd (add_fn a b).

Definition avg_pool_val (p : AvgPool2d) (x : Tensor) (n c i j : nat) : fval :=
  let k := pool_kernel p in
  fdiv_nat
    (sum_n k (fun di => sum_n k (fun dj => at4 x n c (i * k + di) (j * k + dj))))
    (k * k).

Definition avg_pool2d_fn (p : AvgPool2d) (x : Tensor) : option Tensor :=
  omap (fun s => tensor_of s (avg_pool_val p x)) (avg_pool_shape p (shape x)).

Definition avg_pool2d (p : AvgPool2d) (x : Tensor) : M Tensor :=
  perform (OpAvgPool (pool_kernel p)) (avg_pool2d_fn p x).

Definition conv_relu (m : Conv2d) (x : Tensor) : M Tensor :=
  c <- conv2d m x ;; relu c.

Record ConvParams : Type := mkConvParams
  { p_weight : nat -> nat -> nat -> nat -> fval; p_bias : nat -> fval }.

Definition nn_Conv2d (inc outc k s p : nat) (th : ConvParams) : Conv2d :=
  mkConv2d inc outc k s p (p_weight th) (p_bias th).

Module TowerRepresentation.

Record t : Type := mk
  { r_dim : nat; pool : bool;
    conv1 : Conv2d; conv2 : Conv2d; conv3 : Conv2d; conv4 : Conv2d;
    conv5 : Conv2d; conv6 : Conv2d; conv7 : Conv2d; conv8 : Conv2d;
    avgpool : AvgPool2d }.

(** [__init__(self, n_channels, v_dim, r_dim=256, pool=True)] *)
Definition init (n_channels v_dim r_dim : nat) (pool : bool)
                (th : nat -> ConvParams) : t :=
  let k := r_dim in
  {| r_dim := k;
     pool := pool;
     conv1 := nn_Conv2d n_channels k 2 2 0 (th 1);
     conv2 := nn_Conv2d k k 2 2 0 (th 2);
     conv3 := nn_Conv2d k (k / 2) 3 1 1 (th 3);
     conv4 := nn_Conv2d (k / 2) k 2 2 0 (th 4);
     conv5 := nn_Conv2d (k + v_dim) k 3 1 1 (th 5);
     conv6 := nn_Conv2d (k + v_dim) (k / 2) 3 1 1 (th 6);
     conv7 := nn_Conv2d (k / 2) k 3 1 1 (th 7);
     conv8 := nn_Conv2d k k 1 1 0 (th 8);
     avgpool := mkAvgPool2d (k / 16) |}.

(** [forward(self, x, v)], lines 67-91. *)
Definition forward (self : t) (x : Tensor) (v : Tensor2) : M Tensor :=
  (* Increase dimensions *)
  v <- view (rows v) v ;;
  v <- repeat (1, 1, r_dim self / 16, r_dim self / 16) v ;;
  (* First skip-connected conv block *)
  skip_in <- conv_relu (conv1 self) x ;;
  skip_out <- conv_relu (conv2 self) skip_in ;;
  x <- conv_relu (conv3 self) skip_in ;;
  a <- conv_relu (conv4 self) x ;;
  x <- add a skip_out ;;
  (* Second skip-connected conv block (merged) *)
  skip_in <- cat x v ;;
  skip_out <- conv_relu (conv5 self) skip_in ;;
  x <- conv_relu (conv6 self) skip_in ;;
  a <- conv_relu (conv7 self) x ;;
  x <- add a skip_out ;;
  r <- conv_relu (conv8 self) x ;;
  if pool self then avg_pool2d (avgpool self) r else ret r.

End TowerRepresentation.

Module PyramidRepresentation.

Record t : Type := mk
  { r_dim : nat;
    conv1 : Conv2d; conv2 : Conv2d; conv3 : Conv2d; conv4 : Conv2d }.

(** [__init__(self, n_channels, v_dim, r_dim=256)] *)
Definition init (n_channels v_dim r_dim : nat) (th : nat -> ConvParams) : t :=
  let k := r_dim in
  {| r_dim := k;
     conv1 := nn_Conv2d (n_channels + v_dim) (k / 8) 2 2 0 (th 1);
     conv2 := nn_Conv2d (k / 8) (k / 4) 2 2 0 (th 2);
     conv3 := nn_Conv2d (k / 4) (k / 2) 2 2 0 (th 3);
     conv4 := nn_Conv2d (k / 2) k 8 8 0 (th 4) |}.

(** [forward(self, x, v)], lines 129-144. *)
Definition forward (self : t) (x : Tensor) (v : Tensor2) : M Tensor :=
  let '(batch_size, _, h, w) := shape x in
  v <- view batch_size v ;;
  v <- repeat (1, 1, h, w) v ;;
  r <- cat x v ;;
  r <- conv_relu (conv1 self) r ;;
  r <- conv_relu (conv2 self) r ;;
  r <- conv_relu (conv3 self) r ;;
  r <- conv_relu (conv4 self) r ;;
  ret r.

End PyramidRepresentation.

(** Concrete parameters: every weight one, every bias zero. *)
Definition ones (i : nat) : ConvParams :=
  mkConvParams (fun _ _ _ _ => Fin 1) (fun _ => Fin 0).


(** One element of the result of a run. *)
Definition result_at (m : M Tensor) (b c i j : nat) : option fval :=
  match m with Some (r, _) => Some (at4 r b c i j) | None => None end.

End F.


(* ================================================================== *)
(** * Shapes of the results *)
(* ================================================================== *)

Section ShapeSimulation.

Lemma shape_tensor_of s f : shape (tensor_of s f) = s.
Proof. destruct s as [[[n c] h] w]. reflexivity. Qed.

Lemma sim_bind (m : M Tensor) (f : Tensor -> M Tensor) ms fs :
  shape_of m = ms ->
  (forall a, shape_of (f a) = fs (shape a)) ->
  shape_of (bind m f) = obind ms fs.
Proof.
  intros <- Hf. destruct m as [[a l]|]; simpl; [|reflexivity].
  rewrite <- Hf. destruct (f a) as [[b l']|]; reflexivity.
Qed.

Lemma sim_perform o (r : option Tensor) : shape_of (perform o r) = omap shape r.
Proof. destruct r; reflexivity. Qed.

Lemma omap_shape_tensor_of (os : option Shape) f :
  omap shape (omap (fun s => tensor_of s (f s)) os) = os.
Proof. destruct os; simpl; [rewrite shape_tensor_of|]; reflexivity. Qed.

Lemma view_sim n v : shape_of (view n v) = view_shape n (shape2 v).
Proof.
  unfold view, view_fn. rewrite sim_perform.
  apply (omap_shape_tensor_of _ (fun _ => _)).
Qed.

Lemma repeat_sim r x : shape_of (repeat r x) = Some (repeat_shape r (shape x)).
Proof.
  unfold repeat, repeat_fn. rewrite sim_perform. unfold omap.
  now rewrite shape_tensor_of.
Qed.

Lemma cat_sim a b : shape_of (cat a b) = cat_shape (shape a) (shape b).
Proof.
  unfold cat, cat_fn. rewrite sim_perform.
  apply (omap_shape_tensor_of _ (fun _ => _)).
Qed.

Lemma conv2d_sim m x : shape_of (conv2d m x) = conv2d_shape m (shape x).
Proof.
  unfold conv2d, conv2d_fn. rewrite sim_perform.
  apply (omap_shape_tensor_of _ (fun _ => _)).
Qed.

Lemma relu_sim x : shape_of (relu x) = Some (shape x).
Proof.
  unfold relu, relu_fn. rewrite sim_perform. unfold omap.
  now rewrite shape_tensor_of.
Qed.

Lemma add_sim a b : shape_of (add a b) = add_shape (shape a) (shape b).
Proof.
  unfold add, add_fn. rewrite sim_perform.
  apply (omap_shape_tensor_of _ (fun _ => _)).
Qed.

Lemma avg_pool2d_sim p x : shape_of (avg_pool2d p x) = avg_pool_shape p (shape x).
Proof.
  unfold avg_pool2d, avg_pool2d_fn. rewrite sim_perform.
  apply (omap_shape_tensor_of _ (fun _ => _)).
Qed.

Lemma obind_Some (o : option Shape) : obind o (fun s => Some s) = o.
Proof. destruct o; reflexivity. Qed.

Lemma conv_relu_sim m x :
  shape_of (conv_relu m x) = conv2d_shape m (shape x).
Proof.
  unfold conv_relu. rewrite <- (obind_Some (conv2d_shape m (shape x))).
  apply sim_bind; [apply conv2d_sim | intros a; apply relu_sim].
Qed.

End ShapeSimulation.

(** Each step of an encoder is matched with the same step on shapes. *)
Create HintDb sim.

#[local] Hint Resolve view_sim repeat_sim cat_sim conv2d_sim relu_sim add_sim
  avg_pool2d_sim conv_relu_sim : sim.

Ltac sim_step :=
  first [ solve [auto with sim]
        | apply sim_bind; [solve [auto with sim] | intros ?a; cbv beta] ].

Lemma tower_block1_sim self x :
  shape_of (TowerRepresentation.block1 self x)
  = TowerRepresentation.block1_shape self (shape x).
Proof.
  unfold TowerRepresentation.block1, TowerRepresentation.block1_shape.
  repeat sim_step.
Qed.

Lemma tower_viewpoint_sim self v :
  shape_of (TowerRepresentation.broadcast_viewpoint self v)
  = TowerRepresentation.broadcast_viewpoint_shape self (shape2 v).
Proof.
  unfold TowerRepresentation.broadcast_viewpoint,
    TowerRepresentation.broadcast_viewpoint_shape.
  repeat sim_step.
Qed.

Lemma tower_block2_sim self x :
  shape_of (TowerRepresentation.block2 self x)
  = TowerRepresentation.block2_shape self (shape x).
Proof.
  unfold TowerRepresentation.block2, TowerRepresentation.block2_shape.
  repeat sim_step.
Qed.

Lemma tower_head_sim self x :
  shape_of (TowerRepresentation.head self x)
  = TowerRepresentation.head_shape self (shape x).
Proof.
  unfold TowerRepresentation.head, TowerRepresentation.head_shape.
  sim_step. destruct (TowerRepresentation.pool self); [auto with sim|reflexivity].
Qed.

#[local] Hint Resolve tower_block1_sim tower_viewpoint_sim tower_block2_sim
  tower_head_sim : sim.

Lemma tower_merged_sim self x v :
  shape_of (TowerRepresentation.merged self x v)
  = TowerRepresentation.merged_shape self (shape x) (shape2 v).
Proof.
  unfold TowerRepresentation.merged, TowerRepresentation.merged_shape.
  repeat sim_step.
Qed.

#[local] Hint Resolve tower_merged_sim : sim.

Lemma tower_forward_sim self x v :
  shape_of (TowerRepresentation.forward self x v)
  = TowerRepresentation.forward_shape self (shape x) (shape2 v).
Proof.
  unfold TowerRepresentation.forward, TowerRepresentation.forward_shape.
  repeat sim_step.
Qed.

Lemma pyramid_forward_sim self x v :
  shape_of (PyramidRepresentation.forward self x v)
  = PyramidRepresentation.forward_shape self (shape x) (shape2 v).
Proof.
  unfold PyramidRepresentation.forward, PyramidRepresentation.forward_shape.
  unfold shape at 1 2. cbv iota beta.
  repeat sim_step.
Qed.

(* ================================================================== *)
(** * Which shapes are accepted *)
(* ================================================================== *)

(** [b2p] turns boolean tests in the context into propositions. *)
Ltac b2p :=
  repeat match goal with
  | H : andb _ _ = true |- _ => apply andb_true_iff in H; destruct H
  | H : andb _ _ = false |- _ => apply andb_false_iff in H; destruct H
  | H : (_ =? _) = true |- _ => apply Nat.eqb_eq in H
  | H : (_ =? _) = false |- _ => apply Nat.eqb_neq in H
  | H : (_ <=? _) = true |- _ => apply Nat.leb_le in H
  | H : (_ <=? _) = false |- _ => apply Nat.leb_gt in H
  | H : (_ <? _) = true |- _ => apply Nat.ltb_lt in H
  | H : (_ <? _) = false |- _ => apply Nat.ltb_ge in H
  end.

Lemma view_shape_rows R V :
  view_shape R (R, V) = if 1 <=? R then Some (R, V, 1, 1) else None.
Proof.
  unfold view_shape; cbv beta iota zeta delta [fst snd].
  destruct (Nat.eqb_spec R 0) as [->|HR]; [reflexivity|].
  rewrite (Nat.mul_comm R V), Nat.Div0.mod_mul, Nat.div_mul by assumption.
  destruct R; [lia|reflexivity].
Qed.

Lemma conv_out_halve n : 2 <= n + 2 * 0 -> conv_out n 2 2 0 = n / 2.
Proof. unfold conv_out. lia. Qed.

Lemma conv_out_eighth n : 8 <= n + 2 * 0 -> conv_out n 8 8 0 = n / 8.
Proof. unfold conv_out. lia. Qed.

Lemma conv_out_same3 n : 3 <= n + 2 * 1 -> conv_out n 3 1 1 = n.
Proof. unfold conv_out. lia. Qed.

Lemma conv_out_same1 n : 1 <= n + 2 * 0 -> conv_out n 1 1 0 = n.
Proof. unfold conv_out. lia. Qed.

Lemma div_2_2 n : n / 2 / 2 = n / 4.
Proof. rewrite !Nat.Div0.div_div. f_equal. Qed.

(** [shape_crush] decides an equation between a shape program and its
    closed form: it follows the program test by test, in the order the tests
    are run, and leaves the arithmetic to [lia]. *)
Ltac head_if t :=
  lazymatch t with
  | obind ?o _ => head_if o
  | if ?b then _ else _ => b
  end.

Ltac shape_cbn :=
  cbn -[Nat.div Nat.modulo Nat.mul Nat.add Nat.sub Nat.leb Nat.eqb Nat.ltb conv_out] in *.

Ltac conv_out_simpl :=
  repeat first [ rewrite conv_out_halve by assumption
               | rewrite conv_out_eighth by assumption
               | rewrite conv_out_same3 by assumption
               | rewrite conv_out_same1 by assumption
               | rewrite div_2_2 ].

Ltac shape_step :=
  match goal with
  | |- ?L = _ =>
      let b := head_if L in
      let E := fresh "E" in
      destruct b eqn:E; b2p; shape_cbn; conv_out_simpl;
      try (exfalso; lia)
  end.

Ltac shape_crush :=
  shape_cbn;
  match goal with
  | |- _ = (if ?c then _ else _) =>
      let E := fresh "E" in destruct c eqn:E; b2p
  end;
  repeat shape_step;
  try reflexivity;
  try (repeat f_equal; lia).

Lemma tower_block1_shape_init n vd k p th B C H W :
  TowerRepresentation.block1_shape (TowerRepresentation.init n vd k p th) (B, C, H, W)
  = if (C =? n) && (1 <=? n) && (2 <=? k) && (4 <=? H) && (4 <=? W)
    then Some (B, k, H / 4, W / 4) else None.
Proof.
  unfold TowerRepresentation.block1_shape, add_shape, bdim.
  shape_crush.
Qed.

Lemma tower_viewpoint_shape_init n vd k p th R V :
  TowerRepresentation.broadcast_viewpoint_shape
    (TowerRepresentation.init n vd k p th) (R, V)
  = if 1 <=? R then Some (R, V, k / 16, k / 16) else None.
Proof.
  unfold TowerRepresentation.broadcast_viewpoint_shape.
  cbv beta iota zeta delta [fst]. rewrite view_shape_rows.
  destruct (1 <=? R); [|reflexivity].
  cbn -[Nat.div Nat.mul]. now rewrite !Nat.mul_1_r, !Nat.mul_1_l.
Qed.

Lemma tower_block2_shape_init n vd k p th B C H W :
  TowerRepresentation.block2_shape (TowerRepresentation.init n vd k p th) (B, C, H, W)
  = if (C =? k + vd) && (2 <=? k) && (1 <=? H) && (1 <=? W)
    then Some (B, k, H, W) else None.
Proof.
  unfold TowerRepresentation.block2_shape, add_shape, bdim.
  shape_crush.
Qed.

Lemma tower_head_shape_nopool n vd k th B C H W :
  TowerRepresentation.head_shape (TowerRepresentation.init n vd k false th) (B, C, H, W)
  = if (C =? k) && (1 <=? k) && (1 <=? H) && (1 <=? W)
    then Some (B, k, H, W) else None.
Proof.
  unfold TowerRepresentation.head_shape.
  shape_crush.
Qed.

Lemma tower_head_shape_pool n vd k th B C H W :
  TowerRepresentation.head_shape (TowerRepresentation.init n vd k true th) (B, C, H, W)
  = if (C =? k) && (16 <=? k) && (k / 16 <=? H) && (k / 16 <=? W)
    then Some (B, k, (H - k / 16) / (k / 16) + 1, (W - k / 16) / (k / 16) + 1)
    else None.
Proof.
  unfold TowerRepresentation.head_shape, avg_pool_shape.
  shape_crush.
Qed.

Lemma tower_merged_shape_init n vd k p th B C H W R V :
  TowerRepresentation.merged_shape (TowerRepresentation.init n vd k p th)
    (B, C, H, W) (R, V)
  = if (1 <=? R) && (B =? R) && (C =? n) && (1 <=? n) && (2 <=? k)
       && (4 <=? H) && (4 <=? W) && (H / 4 =? k / 16) && (W / 4 =? k / 16)
    then Some (B, k + V, H / 4, W / 4) else None.
Proof.
  unfold TowerRepresentation.merged_shape.
  rewrite tower_viewpoint_shape_init, tower_block1_shape_init.
  unfold cat_shape.
  shape_crush.
Qed.

Lemma tower_forward_shape_init n vd k p th B C H W R V :
  TowerRepresentation.forward_shape (TowerRepresentation.init n vd k p th)
    (B, C, H, W) (R, V)
  = if tower_ok n vd k (B, C, H, W) (R, V)
    then Some (B, k, if p then 1 else H / 4, if p then 1 else W / 4)
    else None.
Proof.
  unfold TowerRepresentation.forward_shape, tower_ok.
  rewrite tower_merged_shape_init.
  destruct ((1 <=? R) && (B =? R) && (C =? n) && (1 <=? n) && (2 <=? k)
            && (4 <=? H) && (4 <=? W) && (H / 4 =? k / 16)
            && (W / 4 =? k / 16)) eqn:E1;
    cbn [obind].
  - rewrite tower_block2_shape_init.
    destruct ((k + V =? k + vd) && (2 <=? k) && (1 <=? H / 4) && (1 <=? W / 4)) eqn:E2;
      cbn [obind].
    + destruct p.
      * rewrite tower_head_shape_pool.
        b2p.
        replace (H / 4) with (k / 16) by lia.
        replace (W / 4) with (k / 16) by lia.
        rewrite Nat.sub_diag, Nat.Div0.div_0_l, Nat.leb_refl, Nat.eqb_refl.
        shape_crush.
      * rewrite tower_head_shape_nopool. shape_crush.
    + shape_crush.
  - shape_crush.
Qed.

Lemma pyramid_forward_shape_init n vd k th B C H W R V :
  PyramidRepresentation.forward_shape (PyramidRepresentation.init n vd k th)
    (B, C, H, W) (R, V)
  = if pyramid_ok n vd k (B, C, H, W) (R, V)
    then Some (B, k, H / 64, W / 64)
    else None.
Proof.
  unfold PyramidRepresentation.forward_shape, pyramid_ok, view_shape, cat_shape.
  cbv beta iota zeta delta [fst snd].
  generalize (R * V / B) ((R * V) mod B). intros q r.
  shape_crush.
  now rewrite !Nat.Div0.div_div.
Qed.

(* ================================================================== *)
(** * Reading a successful run backwards *)
(* ================================================================== *)

Section Inversion.

Lemma at4_tensor_of s f : at4 (tensor_of s f) = f.
Proof. destruct s as [[[n c] h] w]. reflexivity. Qed.

Lemma bind_inv {A B} (m : M A) (f : A -> M B) b l :
  bind m f = Some (b, l) ->
  exists a l1 l2, m = Some (a, l1) /\ f a = Some (b, l2) /\ l = l1 ++ l2.
Proof.
  unfold bind. destruct m as [[a l1]|]; [|discriminate].
  destruct (f a) as [[b' l2]|] eqn:E; [|discriminate].
  intros [= <- <-]. now exists a, l1, l2.
Qed.

Lemma perform_inv {A} o (r : option A) a l :
  perform o r = Some (a, l) -> r = Some a /\ l = [o].
Proof. destruct r; [intros [= <- <-]; now split | discriminate]. Qed.

Lemma checked_inv (os : option Shape) f y :
  omap (fun s => tensor_of s f) os = Some y -> os = Some (shape y) /\ at4 y = f.
Proof.
  destruct os as [s|]; [|discriminate]. intros [= <-].
  now rewrite shape_tensor_of, at4_tensor_of.
Qed.

Lemma view_inv n v y l :
  view n v = Some (y, l) ->
  view_shape n (shape2 v) = Some (shape y)
  /\ at4 y = (fun b c _ _ => flat v (b * (rows v * cols v / n) + c))
  /\ l = [OpView].
Proof.
  intros H. apply perform_inv in H as [H ->].
  apply checked_inv in H as [H1 H2]. now repeat split.
Qed.

Lemma repeat_inv r x y l :
  repeat r x = Some (y, l) ->
  shape y = repeat_shape r (shape x)
  /\ at4 y = (fun n c i j => at4 x (n mod size0 x) (c mod size1 x)
                                   (i mod size2 x) (j mod size3 x))
  /\ l = [OpRepeat].
Proof.
  intros H. apply perform_inv in H as [H ->].
  apply (checked_inv (Some (repeat_shape r (shape x)))) in H as [H1 H2].
  repeat split; congruence.
Qed.

Lemma cat_inv a b y l :
  cat a b = Some (y, l) ->
  cat_shape (shape a) (shape b) = Some (shape y)
  /\ at4 y = (fun n c i j => if c <? size1 a then at4 a n c i j
                             else at4 b n (c - size1 a) i j)
  /\ l = [OpCat].
Proof.
  intros H. apply perform_inv in H as [H ->].
  apply checked_inv in H as [H1 H2]. now repeat split.
Qed.

Lemma conv2d_inv m x y l :
  conv2d m x = Some (y, l) ->
  conv2d_shape m (shape x) = Some (shape y)
  /\ at4 y = conv2d_val m x
  /\ l = [OpConv (in_channels m) (out_channels m) (kernel_size m)
                 (stride m) (padding m)].
Proof.
  intros H. apply perform_inv in H as [H ->].
  apply checked_inv in H as [H1 H2]. now repeat split.
Qed.

Lemma relu_inv x y l :
  relu x = Some (y, l) ->
  shape y = shape x
  /\ at4 y = (fun n c i j => relu1 (at4 x n c i j))
  /\ l = [OpRelu].
Proof.
  intros H. apply perform_inv in H as [H ->].
  apply (checked_inv (Some (shape x))) in H as [H1 H2].
  repeat split; congruence.
Qed.

Lemma conv_relu_inv m x y l :
  conv_relu m x = Some (y, l) ->
  conv2d_shape m (shape x) = Some (shape y)
  /\ at4 y = (fun n c i j => relu1 (conv2d_val m x n c i j))
  /\ l = [OpConv (in_channels m) (out_channels m) (kernel_size m)
                 (stride m) (padding m); OpRelu].
Proof.
  intros H. apply bind_inv in H as (c & l1 & l2 & Hc & Hr & ->).
  apply conv2d_inv in Hc as (Hs & Hv & ->).
  apply relu_inv in Hr as (Hs' & Hv' & ->).
  rewrite Hs', Hv', Hv. now repeat split.
Qed.

Lemma add_inv a b y l :
  add a b = Some (y, l) ->
  add_shape (shape a) (shape b) = Some (shape y)
  /\ at4 y = (fun n c i j => (bat a n c i j + bat b n c i j)%Q)
  /\ l = [OpAdd].
Proof.
  intros H. apply perform_inv in H as [H ->].
  apply checked_inv in H as [H1 H2]. now repeat split.
Qed.

Lemma avg_pool2d_inv p x y l :
  avg_pool2d p x = Some (y, l) ->
  avg_pool_shape p (shape x) = Some (shape y)
  /\ at4 y = avg_pool_val p x
  /\ l = [OpAvgPool (pool_kernel p)].
Proof.
  intros H. apply perform_inv in H as [H ->].
  apply checked_inv in H as [H1 H2]. now repeat split.
Qed.

Lemma ret_inv {A} (a b : A) l : ret a = Some (b, l) -> b = a /\ l = [].
Proof. intros [= <- <-]. now split. Qed.

Lemma shape_of_Some m s :
  shape_of m = Some s -> exists r tr, m = Some (r, tr) /\ shape r = s.
Proof.
  destruct m as [[r tr]|]; [|discriminate]. intros [= <-]. now exists r, tr.
Qed.

Lemma shape_of_run m r tr : m = Some (r, tr) -> shape_of m = Some (shape r).
Proof. now intros ->. Qed.

Lemma shape_of_None m : shape_of m = None -> m = None.
Proof. destruct m as [[r tr]|]; [discriminate|reflexivity]. Qed.

End Inversion.

(** [run_inv H] splits the run [H : m = Some (r, tr)] at every bind and
    replaces each backend call by what it returned. *)
Ltac run_inv H :=
  let a := fresh "t" in
  let l1 := fresh "l" in
  let l2 := fresh "l" in
  let H1 := fresh "Hrun" in
  let Hs := fresh "Hshape" in
  let Hv := fresh "Hval" in
  lazymatch type of H with
  | bind _ _ = Some _ =>
      apply bind_inv in H as (a & l1 & l2 & H1 & H & ->);
      run_inv H1; run_inv H
  | conv_relu _ _ = Some _ => apply conv_relu_inv in H as (Hs & Hv & ->)
  | conv2d _ _ = Some _ => apply conv2d_inv in H as (Hs & Hv & ->)
  | relu _ = Some _ => apply relu_inv in H as (Hs & Hv & ->)
  | add _ _ = Some _ => apply add_inv in H as (Hs & Hv & ->)
  | cat _ _ = Some _ => apply cat_inv in H as (Hs & Hv & ->)
  | view _ _ = Some _ => apply view_inv in H as (Hs & Hv & ->)
  | repeat _ _ = Some _ => apply repeat_inv in H as (Hs & Hv & ->)
  | avg_pool2d _ _ = Some _ => apply avg_pool2d_inv in H as (Hs & Hv & ->)
  | ret _ = Some _ => apply ret_inv in H as (-> & ->)
  | _ => idtac
  end.

(* ================================================================== *)
(** * The operations each encoder performs *)
(* ================================================================== *)

Lemma pyramid_trace n vd k th x v r tr :
  PyramidRepresentation.forward (PyramidRepresentation.init n vd k th) x v
  = Some (r, tr) ->
  tr = [OpView; OpRepeat; OpCat;
        OpConv (n + vd) (k / 8) 2 2 0; OpRelu;
        OpConv (k / 8) (k / 4) 2 2 0; OpRelu;
        OpConv (k / 4) (k / 2) 2 2 0; OpRelu;
        OpConv (k / 2) k 8 8 0; OpRelu].
Proof.
  unfold PyramidRepresentation.forward, shape. cbv iota beta.
  intros H. run_inv H. reflexivity.
Qed.

(** The tower, for contrast, adds twice and pools when asked to. *)
Lemma tower_trace n vd k p th x v r tr :
  TowerRepresentation.forward (TowerRepresentation.init n vd k p th) x v
  = Some (r, tr) ->
  tr = [OpView; OpRepeat;
        OpConv n k 2 2 0; OpRelu; OpConv k k 2 2 0; OpRelu;
        OpConv k (k / 2) 3 1 1; OpRelu; OpConv (k / 2) k 2 2 0; OpRelu; OpAdd;
        OpCat;
        OpConv (k + vd) k 3 1 1; OpRelu; OpConv (k + vd) (k / 2) 3 1 1; OpRelu;
        OpConv (k / 2) k 3 1 1; OpRelu; OpAdd;
        OpConv k k 1 1 0; OpRelu]
       ++ (if p then [OpAvgPool (k / 16)] else []).
Proof.
  unfold TowerRepresentation.forward, TowerRepresentation.merged,
    TowerRepresentation.broadcast_viewpoint, TowerRepresentation.block1,
    TowerRepresentation.block2, TowerRepresentation.head.
  cbn [TowerRepresentation.pool TowerRepresentation.init].
  intros H. destruct p; run_inv H; reflexivity.
Qed.

(* ================================================================== *)
(** * When a forward pass succeeds, and with which shape *)
(* ================================================================== *)

Section Runs.

Lemma tower_forward_run n vd k p th x v r tr :
  TowerRepresentation.forward (TowerRepresentation.init n vd k p th) x v
  = Some (r, tr) ->
  tower_ok n vd k (shape x) (shape2 v) = true
  /\ shape r = (size0 x, k, if p then 1 else size2 x / 4,
                          if p then 1 else size3 x / 4).
Proof.
  intros H. apply shape_of_run in H.
  rewrite tower_forward_sim in H. unfold shape at 1, shape2 in H.
  rewrite tower_forward_shape_init in H. fold (shape x) (shape2 v) in H.
  unfold shape at 1 in H. unfold shape2 in H.
  destruct (tower_ok n vd k _ _); [|discriminate].
  split; [reflexivity|congruence].
Qed.

Lemma tower_forward_ok n vd k p th x v :
  tower_ok n vd k (shape x) (shape2 v) = true ->
  exists r tr,
    TowerRepresentation.forward (TowerRepresentation.init n vd k p th) x v
    = Some (r, tr)
    /\ shape r = (size0 x, k, if p then 1 else size2 x / 4,
                            if p then 1 else size3 x / 4).
Proof.
  intros H. apply shape_of_Some.
  rewrite tower_forward_sim. unfold shape, shape2 in *.
  now rewrite tower_forward_shape_init, H.
Qed.

Lemma tower_forward_fail n vd k p th x v :
  tower_ok n vd k (shape x) (shape2 v) = false ->
  TowerRepresentation.forward (TowerRepresentation.init n vd k p th) x v = None.
Proof.
  intros H. apply shape_of_None.
  rewrite tower_forward_sim. unfold shape, shape2 in *.
  now rewrite tower_forward_shape_init, H.
Qed.

Lemma pyramid_forward_run n vd k th x v r tr :
  PyramidRepresentation.forward (PyramidRepresentation.init n vd k th) x v
  = Some (r, tr) ->
  pyramid_ok n vd k (shape x) (shape2 v) = true
  /\ shape r = (size0 x, k, size2 x / 64, size3 x / 64).
Proof.
  intros H. apply shape_of_run in H.
  rewrite pyramid_forward_sim in H. unfold shape at 1, shape2 in H.
  rewrite pyramid_forward_shape_init in H. fold (shape x) (shape2 v) in H.
  unfold shape at 1 in H. unfold shape2 in H.
  destruct (pyramid_ok n vd k _ _); [|discriminate].
  split; [reflexivity|congruence].
Qed.

Lemma pyramid_forward_ok n vd k th x v :
  pyramid_ok n vd k (shape x) (shape2 v) = true ->
  exists r tr,
    PyramidRepresentation.forward (PyramidRepresentation.init n vd k th) x v
    = Some (r, tr)
    /\ shape r = (size0 x, k, size2 x / 64, size3 x / 64).
Proof.
  intros H. apply shape_of_Some.
  rewrite pyramid_forward_sim. unfold shape, shape2 in *.
  now rewrite pyramid_forward_shape_init, H.
Qed.

Lemma shape_sizes r n c h w :
  shape r = (n, c, h, w) -> size0 r = n /\ size1 r = c /\ size2 r = h /\ size3 r = w.
Proof. unfold shape. intros [= -> -> -> ->]. now repeat split. Qed.

End Runs.

(* ================================================================== *)
(** * Running the model on small inputs *)
(* ================================================================== *)

Example conv_sums_the_window :
  result_at (conv2d (nn_Conv2d 1 1 2 2 0 (ones 0)) x22) 0 0 0 0 = Some 10%Q.
Proof. vm_compute. reflexivity. Qed.

Example conv_pads_with_zeros :
  result_at (conv2d (nn_Conv2d 1 1 3 1 1 (ones 0)) x22) 0 0 1 1 = Some 10%Q
  /\ shape_of (conv2d (nn_Conv2d 1 1 3 1 1 (ones 0)) x22) = Some (1, 1, 2, 2).
Proof. split; vm_compute; reflexivity. Qed.

Example conv_rejects_a_large_kernel :
  conv2d (nn_Conv2d 1 1 3 1 0 (ones 0)) x22 = None.
Proof. reflexivity. Qed.

Example pool_takes_the_mean :
  result_at (avg_pool2d (mkAvgPool2d 2) x22) 0 0 0 0 = Some (5 # 2)%Q.
Proof. vm_compute. reflexivity. Qed.

Example relu_clips :
  result_at (relu (full (1, 1, 1, 1) (-3))) 0 0 0 0 = Some 0%Q
  /\ result_at (relu x22) 0 0 1 0 = Some 3%Q.
Proof. split; vm_compute; reflexivity. Qed.

Example tower_merges_the_viewpoint :
  result_at (TowerRepresentation.merged (TowerRepresentation.init 1 3 16 true ones)
               (full (1, 1, 4, 4) 1) (v_ramp 3)) 0 (16 + 2) 0 0
  = Some 2%Q.
Proof. vm_compute. reflexivity. Qed.

Example pyramid_on_ones :
  result_at (PyramidRepresentation.forward (PyramidRepresentation.init 1 1 8 ones)
               (full (1, 1, 64, 64) 1) (full2 (1, 1) 1)) 0 7 0 0
  = Some 65536%Q.
Proof. vm_compute. reflexivity. Qed.

(* ================================================================== *)
(** * The claims about shapes *)
(* ================================================================== *)

(** C1, as stated, fails: on a 64 x 64 image the pyramid returns a 1 x 1 map,
    while 64 / 32 = 2. *)
Lemma C1_pyramid_not_div32 :
  let x := full (1, 3, 64, 64) 0 in
  let v := full2 (1, 7) 0 in
  exists r tr,
    PyramidRepresentation.forward (PyramidRepresentation.init 3 7 256 ones) x v
    = Some (r, tr)
    /\ shape r = (1, 256, 1, 1)
    /\ size2 r <> size2 x / 32.
Proof.
  intros x v.
  destruct (pyramid_forward_ok 3 7 256 ones x v eq_refl) as (r & tr & E & Hs).
  exists r, tr. split; [exact E|]. split; [exact Hs|].
  apply shape_sizes in Hs as (_ & _ & -> & _). discriminate.
Qed.

(** C1, amended: whenever [PyramidRepresentation.forward] succeeds, the
    output height and width are the input height and width divided by 64,
    the product of the strides 2, 2, 2 and 8. *)
Theorem C1_pyramid_spatial_div64 n vd k th x v r tr :
  PyramidRepresentation.forward (PyramidRepresentation.init n vd k th) x v
  = Some (r, tr) ->
  size2 r = size2 x / (2 * 2 * 2 * 8) /\ size3 r = size3 x / (2 * 2 * 2 * 8).
Proof.
  intros H. apply pyramid_forward_run in H as [_ Hs].
  apply shape_sizes in Hs as (_ & _ & -> & ->). now split.
Qed.

Lemma C1_pyramid_spatial_div64_witness :
  exists r tr,
    PyramidRepresentation.forward (PyramidRepresentation.init 3 7 256 ones)
      (full (2, 3, 128, 64) 0) (full2 (2, 7) 0) = Some (r, tr)
    /\ size2 r = 2 /\ size3 r = 1.
Proof.
  destruct (pyramid_forward_ok 3 7 256 ones (full (2, 3, 128, 64) 0)
              (full2 (2, 7) 0) eq_refl) as (r & tr & E & _).
  exists r, tr. split; [exact E|].
  exact (C1_pyramid_spatial_div64 3 7 256 ones _ _ r tr E).
Defined.

(** C2: with n_channels = 3, v_dim = 7, r_dim = 256, an image of shape
    (1, 3, 64, 64) and a viewpoint of shape (1, 7), the tower returns shape
    (1, 256, 1, 1) when pooling and (1, 256, 16, 16) when not. *)
Theorem C2_tower_concrete_shapes th x v :
  shape x = (1, 3, 64, 64) ->
  shape2 v = (1, 7) ->
  (exists r tr,
     TowerRepresentation.forward (TowerRepresentation.init 3 7 256 true th) x v
     = Some (r, tr) /\ shape r = (1, 256, 1, 1))
  /\
  (exists r tr,
     TowerRepresentation.forward (TowerRepresentation.init 3 7 256 false th) x v
     = Some (r, tr) /\ shape r = (1, 256, 16, 16)).
Proof.
  intros Hx Hv.
  assert (Hok : tower_ok 3 7 256 (shape x) (shape2 v) = true)
    by (rewrite Hx, Hv; reflexivity).
  apply shape_sizes in Hx as (H0 & _ & H2 & H3).
  split.
  - destruct (tower_forward_ok 3 7 256 true th x v Hok) as (r & tr & E & Hs).
    exists r, tr. split; [exact E|]. now rewrite Hs, H0.
  - destruct (tower_forward_ok 3 7 256 false th x v Hok) as (r & tr & E & Hs).
    exists r, tr. split; [exact E|]. now rewrite Hs, H0, H2, H3.
Qed.

Lemma C2_tower_concrete_shapes_witness :
  (exists r tr,
     TowerRepresentation.forward (TowerRepresentation.init 3 7 256 true ones)
       (full (1, 3, 64, 64) 0) (full2 (1, 7) 0)
     = Some (r, tr) /\ shape r = (1, 256, 1, 1))
  /\
  (exists r tr,
     TowerRepresentation.forward (TowerRepresentation.init 3 7 256 false ones)
       (full (1, 3, 64, 64) 0) (full2 (1, 7) 0)
     = Some (r, tr) /\ shape r = (1, 256, 16, 16)).
Proof.
  apply (C2_tower_concrete_shapes ones (full (1, 3, 64, 64) 0) (full2 (1, 7) 0));
    reflexivity.
Defined.

(** C3, as stated, fails: r_dim = 40 is not a multiple of 16, yet
    construction succeeds and so does forward on an 8 x 8 image. *)
Lemma C3_r_dim_40_runs :
  40 mod 16 <> 0
  /\ exists r tr,
       TowerRepresentation.forward (TowerRepresentation.init 3 7 40 true ones)
         (full (1, 3, 8, 8) 0) (full2 (1, 7) 0)
       = Some (r, tr)
       /\ shape r = (1, 40, 1, 1).
Proof.
  split; [discriminate|].
  exact (tower_forward_ok 3 7 40 true ones (full (1, 3, 8, 8) 0)
           (full2 (1, 7) 0) eq_refl).
Qed.

(** C3, amended: with at least one image channel, forward raises on every
    image and viewpoint exactly when r_dim < 16, that is when r_dim // 16 is
    zero; for every r_dim of at least 16, a multiple of 16 or not, some input
    is accepted. *)
Theorem C3_tower_always_fails_iff_r_dim_below_16 n vd k p th :
  1 <= n ->
  (forall x v,
     TowerRepresentation.forward (TowerRepresentation.init n vd k p th) x v = None)
  <-> k < 16.
Proof.
  intros Hn. split.
  - intros Hfail. destruct (Nat.lt_ge_cases k 16) as [Hk|Hk]; [exact Hk|exfalso].
    pose (x := full (1, n, 4 * (k / 16), 4 * (k / 16)) 0).
    pose (v := full2 (1, vd) 0).
    assert (Hok : tower_ok n vd k (shape x) (shape2 v) = true).
    { unfold x, v, tower_ok; cbv beta iota zeta delta [shape shape2 full full2
        tensor_of size0 size1 size2 size3 rows cols fst snd].
      rewrite !Nat.eqb_refl.
      repeat rewrite andb_true_iff. repeat split;
        first [apply Nat.leb_le; lia | apply Nat.eqb_eq; lia]. }
    destruct (tower_forward_ok n vd k p th x v Hok) as (r & tr & E & _).
    rewrite Hfail in E. discriminate.
  - intros Hk x v. apply tower_forward_fail.
    unfold tower_ok, shape, shape2.
    destruct ((1 <=? rows v) && (size0 x =? rows v) && (size1 x =? n)
              && (1 <=? n) && (cols v =? vd) && (2 <=? k) && (4 <=? size2 x)
              && (4 <=? size3 x) && (size2 x / 4 =? k / 16)
              && (size3 x / 4 =? k / 16)) eqn:E; [|reflexivity].
    b2p. lia.
Qed.

Lemma C3_tower_always_fails_iff_r_dim_below_16_witness :
  ((forall x v,
      TowerRepresentation.forward (TowerRepresentation.init 3 7 40 true ones) x v
      = None)
   <-> 40 < 16)
  /\
  ((forall x v,
      TowerRepresentation.forward (TowerRepresentation.init 3 7 15 true ones) x v
      = None)
   <-> 15 < 16).
Proof.
  split.
  - apply (C3_tower_always_fails_iff_r_dim_below_16 3 7 40 true ones).
    apply Nat.leb_le. reflexivity.
  - apply (C3_tower_always_fails_iff_r_dim_below_16 3 7 15 true ones).
    apply Nat.leb_le. reflexivity.
Defined.

(** C4: whenever forward succeeds, for the tower and for the pyramid, the
    batch size of the output is the batch size of the input image. *)
Theorem C4_batch_preserved n vd k p th x v r tr :
  (TowerRepresentation.forward (TowerRepresentation.init n vd k p th) x v
   = Some (r, tr) -> size0 r = size0 x)
  /\
  (PyramidRepresentation.forward (PyramidRepresentation.init n vd k th) x v
   = Some (r, tr) -> size0 r = size0 x).
Proof.
  split; intros H.
  - apply tower_forward_run in H as [_ Hs].
    now apply shape_sizes in Hs as (-> & _).
  - apply pyramid_forward_run in H as [_ Hs].
    now apply shape_sizes in Hs as (-> & _).
Qed.

Lemma C4_batch_preserved_witness :
  (exists r tr,
     TowerRepresentation.forward (TowerRepresentation.init 3 7 32 false ones)
       (full (5, 3, 8, 8) 0) (full2 (5, 7) 0) = Some (r, tr)
     /\ size0 r = 5)
  /\
  (exists r tr,
     PyramidRepresentation.forward (PyramidRepresentation.init 3 7 32 ones)
       (full (5, 3, 64, 64) 0) (full2 (5, 7) 0) = Some (r, tr)
     /\ size0 r = 5).
Proof.
  split.
  - destruct (tower_forward_ok 3 7 32 false ones (full (5, 3, 8, 8) 0)
                (full2 (5, 7) 0) eq_refl) as (r & tr & E & _).
    exists r, tr. split; [exact E|].
    exact (proj1 (C4_batch_preserved 3 7 32 false ones _ _ r tr) E).
  - destruct (pyramid_forward_ok 3 7 32 ones (full (5, 3, 64, 64) 0)
                (full2 (5, 7) 0) eq_refl) as (r & tr & E & _).
    exists r, tr. split; [exact E|].
    exact (proj2 (C4_batch_preserved 3 7 32 false ones _ _ r tr) E).
Defined.

(** C5: without pooling, whenever forward succeeds the output height and
    width are the input height and width divided by 4, and both are
    positive. *)
Theorem C5_tower_nopool_spatial n vd k th x v r tr :
  TowerRepresentation.forward (TowerRepresentation.init n vd k false th) x v
  = Some (r, tr) ->
  size2 r = size2 x / 4 /\ size3 r = size3 x / 4
  /\ 0 < size2 r /\ 0 < size3 r.
Proof.
  intros H. apply tower_forward_run in H as [Hok Hs].
  apply shape_sizes in Hs as (_ & _ & -> & ->).
  unfold tower_ok, shape, shape2 in Hok. b2p.
  repeat split; lia.
Qed.

Lemma C5_tower_nopool_spatial_witness :
  exists r tr,
    TowerRepresentation.forward (TowerRepresentation.init 3 7 50 false ones)
      (full (2, 3, 13, 15) 0) (full2 (2, 7) 0) = Some (r, tr)
    /\ size2 r = 3 /\ size3 r = 3 /\ 0 < size2 r /\ 0 < size3 r.
Proof.
  destruct (tower_forward_ok 3 7 50 false ones (full (2, 3, 13, 15) 0)
              (full2 (2, 7) 0) eq_refl) as (r & tr & E & _).
  exists r, tr. split; [exact E|].
  exact (C5_tower_nopool_spatial 3 7 50 ones _ _ r tr E).
Defined.

Section TowerBlocks.

Lemma conv_relu_run m x s :
  conv2d_shape m (shape x) = Some s ->
  exists y l, conv_relu m x = Some (y, l) /\ shape y = s.
Proof. intros H. apply shape_of_Some. now rewrite conv_relu_sim. Qed.

Lemma add_run a b s :
  shape a = s -> shape b = s ->
  exists y l, add a b = Some (y, l) /\ shape y = s.
Proof.
  intros Ha Hb. apply shape_of_Some. rewrite add_sim, Ha, Hb.
  destruct s as [[[n c] h] w]. unfold add_shape, bdim.
  now rewrite !Nat.eqb_refl.
Qed.

Lemma conv2d_shape_ok m n c h w :
  c = in_channels m -> 1 <= in_channels m -> 1 <= out_channels m ->
  1 <= kernel_size m -> 1 <= stride m ->
  kernel_size m <= h + 2 * padding m -> kernel_size m <= w + 2 * padding m ->
  conv2d_shape m (n, c, h, w)
  = Some (n, out_channels m,
          conv_out h (kernel_size m) (stride m) (padding m),
          conv_out w (kernel_size m) (stride m) (padding m)).
Proof.
  intros -> H0 H1 H2 H3 H4 H5. unfold conv2d_shape.
  rewrite Nat.eqb_refl.
  repeat match goal with
         | H : _ <= _ |- _ => apply Nat.leb_le in H; rewrite H; clear H
         end.
  reflexivity.
Qed.

Lemma nn_conv_shape i o ks st pd th n c h w :
  c = i -> 1 <= i -> 1 <= o -> 1 <= ks -> 1 <= st ->
  ks <= h + 2 * pd -> ks <= w + 2 * pd ->
  conv2d_shape (nn_Conv2d i o ks st pd th) (n, c, h, w)
  = Some (n, o, conv_out h ks st pd, conv_out w ks st pd).
Proof. intros. now apply conv2d_shape_ok. Qed.

End TowerBlocks.

(** C10, as stated, fails: a 2 x 2 image satisfies H, W >= 2, but the second
    convolution of block 1 is rejected (its input is 1 x 1, its kernel
    2 x 2), so neither branch produces a tensor. *)
Lemma C10_block1_fails_on_2x2 :
  let self := TowerRepresentation.init 3 7 16 true ones in
  let x := full (1, 3, 2, 2) 0 in
  2 <= size2 x /\ 2 <= size3 x
  /\ (exists skip_in l,
        conv_relu (TowerRepresentation.conv1 self) x = Some (skip_in, l)
        /\ shape skip_in = (1, 16, 1, 1)
        /\ conv_relu (TowerRepresentation.conv2 self) skip_in = None)
  /\ TowerRepresentation.block1 self x = None.
Proof.
  intros self x. split; [apply le_n|]. split; [apply le_n|]. split.
  - destruct (conv_relu_run (TowerRepresentation.conv1 self) x (1, 16, 1, 1)
                eq_refl) as (y & l & E & Hs).
    exists y, l. split; [exact E|]. split; [exact Hs|].
    apply shape_of_None. now rewrite conv_relu_sim, Hs.
  - apply shape_of_None. now rewrite tower_block1_sim.
Qed.

(** C10, amended: for an image with n_channels >= 1 channels and H, W >= 4
    (and r_dim >= 2) both branches of block 1 succeed with shape
    (B, r_dim, (H/2)/2, (W/2)/2) and so does their sum; block 2 keeps the
    batch and spatial sizes of whatever enters it with r_dim + v_dim
    channels; and with a viewpoint of shape (B, v_dim), B >= 1, forward
    succeeds exactly when the concatenation is accepted, that is when
    (H/2)/2 and (W/2)/2 both equal r_dim // 16. *)
Theorem C10_residual_additions_consistent n vd k p th x v :
  let self := TowerRepresentation.init n vd k p th in
  let s1 := (size0 x, k, size2 x / 2 / 2, size3 x / 2 / 2) in
  size1 x = n -> 1 <= n -> 2 <= k -> 4 <= size2 x -> 4 <= size3 x ->
  (exists skip_in l0 skip_out l1 x3 l2 a l3 y l4,
      conv_relu (TowerRepresentation.conv1 self) x = Some (skip_in, l0)
      /\ conv_relu (TowerRepresentation.conv2 self) skip_in = Some (skip_out, l1)
      /\ conv_relu (TowerRepresentation.conv3 self) skip_in = Some (x3, l2)
      /\ conv_relu (TowerRepresentation.conv4 self) x3 = Some (a, l3)
      /\ shape skip_out = s1 /\ shape a = s1
      /\ add a skip_out = Some (y, l4) /\ shape y = s1
      /\ TowerRepresentation.block1 self x
         = Some (y, l0 ++ l1 ++ l2 ++ l3 ++ l4))
  /\ (forall m, size1 m = k + vd -> 1 <= size2 m -> 1 <= size3 m ->
        exists y l, TowerRepresentation.block2 self m = Some (y, l)
                    /\ shape y = (size0 m, k, size2 m, size3 m))
  /\ (rows v = size0 x -> 1 <= rows v -> cols v = vd ->
        ((exists r tr, TowerRepresentation.forward self x v = Some (r, tr))
         <-> size2 x / 2 / 2 = k / 16 /\ size3 x / 2 / 2 = k / 16)).
Proof.
  intros self s1 Hc Hn Hk Hh Hw. split; [|split].
  - destruct (conv_relu_run (TowerRepresentation.conv1 self) x
                (size0 x, k, size2 x / 2, size3 x / 2))
      as (skip_in & l0 & E0 & S0).
    { change (TowerRepresentation.conv1 self) with (nn_Conv2d n k 2 2 0 (th 1)).
      unfold shape. rewrite nn_conv_shape by lia.
      now rewrite !conv_out_halve by lia. }
    destruct (conv_relu_run (TowerRepresentation.conv2 self) skip_in s1)
      as (skip_out & l1 & E1 & S1).
    { change (TowerRepresentation.conv2 self) with (nn_Conv2d k k 2 2 0 (th 2)).
      rewrite S0, nn_conv_shape by lia.
      now rewrite !conv_out_halve by lia. }
    destruct (conv_relu_run (TowerRepresentation.conv3 self) skip_in
                (size0 x, k / 2, size2 x / 2, size3 x / 2))
      as (x3 & l2 & E2 & S2).
    { change (TowerRepresentation.conv3 self)
        with (nn_Conv2d k (k / 2) 3 1 1 (th 3)).
      rewrite S0, nn_conv_shape by lia.
      now rewrite !conv_out_same3 by lia. }
    destruct (conv_relu_run (TowerRepresentation.conv4 self) x3 s1)
      as (a & l3 & E3 & S3).
    { change (TowerRepresentation.conv4 self)
        with (nn_Conv2d (k / 2) k 2 2 0 (th 4)).
      rewrite S2, nn_conv_shape by lia.
      now rewrite !conv_out_halve by lia. }
    destruct (add_run a skip_out s1 S3 S1) as (y & l4 & E4 & S4).
    exists skip_in, l0, skip_out, l1, x3, l2, a, l3, y, l4.
    repeat (split; [assumption|]).
    unfold TowerRepresentation.block1, bind.
    fold self. now rewrite E0, E1, E2, E3, E4.
  - intros m Hm H2 H3. apply shape_of_Some.
    rewrite tower_block2_sim. unfold shape.
    unfold self. rewrite tower_block2_shape_init.
    destruct ((size1 m =? k + vd) && (2 <=? k) && (1 <=? size2 m)
              && (1 <=? size3 m)) eqn:E; [reflexivity|].
    b2p; lia.
  - intros Hr Hb Hv. rewrite !div_2_2. split.
    + intros (r & tr & E). apply tower_forward_run in E as [Hok _].
      unfold tower_ok, shape, shape2 in Hok. b2p. now split.
    + intros [E2 E3].
      destruct (tower_forward_ok n vd k p th x v) as (r & tr & E & _);
        [|now exists r, tr].
      unfold tower_ok, shape, shape2.
      repeat rewrite andb_true_iff. repeat split;
        first [apply Nat.leb_le; lia | apply Nat.eqb_eq; lia].
Qed.

Lemma C10_residual_additions_consistent_witness :
  let self := TowerRepresentation.init 3 7 40 true ones in
  let x := full (1, 3, 10, 11) 0 in
  let s1 := (1, 40, 2, 2) in
  exists skip_in l0 skip_out l1 x3 l2 a l3 y l4,
      conv_relu (TowerRepresentation.conv1 self) x = Some (skip_in, l0)
      /\ conv_relu (TowerRepresentation.conv2 self) skip_in = Some (skip_out, l1)
      /\ conv_relu (TowerRepresentation.conv3 self) skip_in = Some (x3, l2)
      /\ conv_relu (TowerRepresentation.conv4 self) x3 = Some (a, l3)
      /\ shape skip_out = s1 /\ shape a = s1
      /\ add a skip_out = Some (y, l4) /\ shape y = s1
      /\ TowerRepresentation.block1 self x
         = Some (y, l0 ++ l1 ++ l2 ++ l3 ++ l4).
Proof.
  intros self x s1.
  refine (proj1 (C10_residual_additions_consistent 3 7 40 true ones x
                   (full2 (1, 7) 0) _ _ _ _ _)).
  - reflexivity.
  - apply Nat.leb_le. reflexivity.
  - apply Nat.leb_le. reflexivity.
  - apply Nat.leb_le. reflexivity.
  - apply Nat.leb_le. reflexivity.
Defined.

(* ================================================================== *)
(** * The claims about element values *)
(* ================================================================== *)

Section ExtendedValues.









End ExtendedValues.








Section Viewpoint.

Lemma flat_row_major v b c :
  1 <= rows v -> c < cols v ->
  flat v (b * (rows v * cols v / rows v) + c) = at2 v b c.
Proof.
  intros Hr Hc. unfold flat.
  rewrite (Nat.mul_comm (rows v)), Nat.div_mul by lia.
  rewrite Nat.div_add_l, Nat.div_small, Nat.add_0_r by lia.
  now rewrite Nat.add_comm, Nat.Div0.mod_add, Nat.mod_small.
Qed.

Lemma tower_block1_run n vd k p th x y l :
  TowerRepresentation.block1 (TowerRepresentation.init n vd k p th) x
  = Some (y, l) ->
  shape y = (size0 x, k, size2 x / 4, size3 x / 4).
Proof.
  intros H. apply shape_of_run in H. rewrite tower_block1_sim in H.
  unfold shape at 1 in H. rewrite tower_block1_shape_init in H.
  destruct (_ && _) in H; [congruence|discriminate].
Qed.

End Viewpoint.

(** C7: in a successful tower forward pass the viewpoint is first viewed as
    (B, v_dim, 1, 1), then tiled to (B, v_dim, r_dim // 16, r_dim // 16) with
    every spatial position holding the viewpoint's own entry, and only then
    concatenated after the r_dim channels of the block-1 output. *)
Theorem C7_viewpoint_broadcast n vd k p th x v r tr :
  let self := TowerRepresentation.init n vd k p th in
  let B := size0 x in
  let e := k / 16 in
  TowerRepresentation.forward self x v = Some (r, tr) ->
  exists v1 v2 x1 l1 m,
    view (rows v) v = Some (v1, [OpView])
    /\ shape v1 = (B, vd, 1, 1)
    /\ (forall b c, b < B -> c < vd -> at4 v1 b c 0 0 = at2 v b c)
    /\ repeat (1, 1, e, e) v1 = Some (v2, [OpRepeat])
    /\ shape v2 = (B, vd, e, e)
    /\ (forall b c i j, b < B -> c < vd -> i < e -> j < e ->
          at4 v2 b c i j = at2 v b c)
    /\ TowerRepresentation.block1 self x = Some (x1, l1)
    /\ cat x1 v2 = Some (m, [OpCat])
    /\ shape m = (B, k + vd, e, e)
    /\ (forall b c i j, b < B -> i < e -> j < e ->
          (c < k -> at4 m b c i j = at4 x1 b c i j)
          /\ (c < vd -> at4 m b (k + c) i j = at2 v b c))
    /\ TowerRepresentation.merged self x v
       = Some (m, [OpView; OpRepeat] ++ l1 ++ [OpCat]).
Proof.
  intros self B e H.
  pose proof (tower_forward_run _ _ _ _ _ _ _ _ _ H) as [Hok _].
  unfold tower_ok, shape, shape2 in Hok. b2p.
  unfold TowerRepresentation.forward in H.
  apply bind_inv in H as (m & lm & l' & Hm & _ & _).
  pose proof Hm as Hm0.
  unfold TowerRepresentation.merged, TowerRepresentation.broadcast_viewpoint in Hm.
  apply bind_inv in Hm as (v2 & lv & lx & Hv & Hm & Elm).
  apply bind_inv in Hv as (v1 & l1 & l2 & Hv1 & Hv2 & Elv).
  apply bind_inv in Hm as (x1 & l3 & l4 & Hx1 & Hcat & Elx).
  pose proof Hv1 as Hv1'. pose proof Hv2 as Hv2'. pose proof Hcat as Hcat'.
  apply view_inv in Hv1 as (S1 & V1 & ->).
  apply repeat_inv in Hv2 as (S2 & V2 & ->).
  apply cat_inv in Hcat as (S3 & V3 & ->).
  pose proof (tower_block1_run _ _ _ _ _ _ _ _ Hx1) as Sx1.
  unfold shape2 in S1. rewrite view_shape_rows in S1.
  destruct (1 <=? rows v) eqn:Er; [|discriminate].
  assert (S1' : shape v1 = (rows v, cols v, 1, 1)) by congruence.
  clear S1. rewrite S1' in S2. cbn -[Nat.div Nat.mul] in S2.
  rewrite !Nat.mul_1_r, !Nat.mul_1_l in S2.
  cbn [TowerRepresentation.r_dim TowerRepresentation.init] in S2, Hv2'.
  rewrite Sx1, S2 in S3. unfold cat_shape in S3.
  destruct (_ && _) in S3; [|discriminate].
  assert (S3' : shape m = (size0 x, k + cols v, size2 x / 4, size3 x / 4))
    by congruence.
  clear S3.
  assert (EB : rows v = B) by (unfold B; lia).
  assert (EV : cols v = vd) by assumption.
  assert (E2 : size2 x / 4 = e) by (unfold e; lia).
  assert (E3 : size3 x / 4 = e) by (unfold e; lia).
  rewrite EB, EV in S1', S2. rewrite EV, E2, E3 in S3'.
  apply shape_sizes in Sx1 as (X0 & X1 & X2 & X3).
  assert (A1 : forall b c, b < B -> c < vd -> at4 v1 b c 0 0 = at2 v b c).
  { intros b c Hb Hc. rewrite V1. apply flat_row_major; lia. }
  assert (A2 : forall b c i j, b < B -> c < vd -> i < e -> j < e ->
                 at4 v2 b c i j = at2 v b c).
  { intros b c i j Hb Hc Hi Hj. rewrite V2.
    assert (Z0 : size0 v1 = B /\ size1 v1 = vd /\ size2 v1 = 1 /\ size3 v1 = 1)
      by (now apply shape_sizes).
    destruct Z0 as (-> & -> & -> & ->).
    rewrite !Nat.mod_1_r, !Nat.mod_small by assumption. now apply A1. }
  exists v1, v2, x1, l3, m.
  split; [exact Hv1'|]. split; [exact S1'|]. split; [exact A1|].
  split; [exact Hv2'|]. split; [exact S2|]. split; [exact A2|].
  split; [exact Hx1|]. split; [exact Hcat'|]. split; [exact S3'|].
  split; [|subst lm lv lx; exact Hm0].
  intros b c i j Hb Hi Hj. rewrite V3, X1. split; intros Hc.
  - apply Nat.ltb_lt in Hc. now rewrite Hc.
  - assert (Hge : (k + c <? k) = false) by (apply Nat.ltb_ge; lia).
    rewrite Hge. replace (k + c - k) with c by lia. now apply A2.
Qed.

Lemma C7_viewpoint_broadcast_witness :
  let self := TowerRepresentation.init 3 7 32 true ones in
  let x := full (1, 3, 8, 8) 1 in
  let v := v_ramp 7 in
  exists m l,
    TowerRepresentation.merged self x v = Some (m, l)
    /\ shape m = (1, 39, 2, 2)
    /\ at4 m 0 (32 + 3) 1 1 = 3%Q.
Proof.
  intros self x v.
  destruct (tower_forward_ok 3 7 32 true ones x v eq_refl) as (r & tr & E & _).
  destruct (C7_viewpoint_broadcast 3 7 32 true ones x v r tr E)
    as (v1 & v2 & x1 & l1 & m & _ & _ & _ & _ & _ & _ & _ & _ & Sm & Vm & Em).
  exists m, ([OpView; OpRepeat] ++ l1 ++ [OpCat]).
  split; [exact Em|]. split; [exact Sm|].
  refine (proj2 (Vm 0 3 1 1 _ _ _) _); apply Nat.ltb_lt; reflexivity.
Defined.

(* ================================================================== *)
(** * The result depends on nothing but inputs and parameters *)
(* ================================================================== *)

Section Extensionality.

Lemma teq_refl a : teq a a.
Proof. split; [reflexivity | now intros]. Qed.

Lemma teq2_refl a : teq2 a a.
Proof. split; [reflexivity | now intros]. Qed.

Lemma conv_eq_refl m : conv_eq m m.
Proof. unfold conv_eq. repeat split; reflexivity. Qed.

Lemma teq_sizes a b :
  teq a b ->
  size0 a = size0 b /\ size1 a = size1 b /\ size2 a = size2 b /\ size3 a = size3 b.
Proof. intros [H _]. unfold shape in H. injection H as -> -> -> ->. now repeat split. Qed.

Lemma sum_n_ext n f g :
  (forall i, i < n -> f i = g i) -> sum_n n f = sum_n n g.
Proof.
  induction n as [|n IH]; intros H; simpl; [reflexivity|].
  rewrite IH, (H n) by (intros; auto with arith). reflexivity.
Qed.

Lemma bind_ext (m m' : M Tensor) (f f' : Tensor -> M Tensor) :
  Meq m m' ->
  (forall a a', teq a a' -> Meq (f a) (f' a')) ->
  Meq (bind m f) (bind m' f').
Proof.
  intros Hm Hf. unfold bind.
  destruct m as [[a l]|], m' as [[a' l']|]; simpl in Hm; try contradiction;
    [|exact I].
  destruct Hm as [Ha ->]. specialize (Hf a a' Ha). unfold Meq in Hf.
  destruct (f a) as [[b l1]|], (f' a') as [[b' l1']|]; try contradiction;
    [|exact I].
  destruct Hf as [Hb ->]. now split.
Qed.

(** An operation that checks shapes and then tabulates its result. *)
Lemma checked_ext o (os : option Shape) f f' :
  (forall n c h w, os = Some (n, c, h, w) ->
     forall b d i j, b < n -> d < c -> i < h -> j < w -> f b d i j = f' b d i j) ->
  Meq (perform o (omap (fun s => tensor_of s f) os))
      (perform o (omap (fun s => tensor_of s f') os)).
Proof.
  intros H. destruct os as [[[[n c] h] w]|]; simpl; [|exact I].
  split; [|reflexivity]. split; [reflexivity|]. simpl.
  intros. now apply (H n c h w).
Qed.

End Extensionality.

Section OpExt.

Lemma relu_ext x x' : teq x x' -> Meq (relu x) (relu x').
Proof.
  intros [Hs Hv]. unfold relu, relu_fn. rewrite <- Hs.
  apply (checked_ext OpRelu (Some (shape x))).
  intros n c h w [= <- <- <- <-] b d i j Hb Hd Hi Hj.
  now rewrite Hv.
Qed.

Lemma repeat_ext r x x' : teq x x' -> Meq (repeat r x) (repeat r x').
Proof.
  intros Hx. destruct (teq_sizes _ _ Hx) as (E0 & E1 & E2 & E3).
  destruct Hx as [Hs Hv]. unfold repeat, repeat_fn.
  rewrite <- Hs, <- E0, <- E1, <- E2, <- E3.
  apply (checked_ext OpRepeat (Some (repeat_shape r (shape x)))).
  destruct r as [[[r0 r1] r2] r3]. unfold repeat_shape, shape.
  intros n c h w [= <- <- <- <-] b d i j Hb Hd Hi Hj.
  apply Hv; apply Nat.mod_upper_bound; lia.
Qed.

Lemma cat_ext a a' b b' : teq a a' -> teq b b' -> Meq (cat a b) (cat a' b').
Proof.
  intros Ha Hb. destruct (teq_sizes _ _ Ha) as (A0 & A1 & A2 & A3).
  destruct (teq_sizes _ _ Hb) as (B0 & B1 & B2 & B3).
  destruct Ha as [Sa Va], Hb as [Sb Vb]. unfold cat, cat_fn.
  rewrite <- Sa, <- Sb, <- A1.
  apply checked_ext. unfold cat_shape, shape.
  intros n c h w Hc q d i j Hq Hd Hi Hj.
  destruct (_ && _) eqn:E in Hc; [|discriminate]. b2p.
  injection Hc as <- <- <- <-.
  destruct (d <? size1 a) eqn:Ed; b2p.
  - now apply Va.
  - apply Vb; lia.
Qed.

Lemma bdim_idx a b d i :
  bdim a b = Some d -> i < d -> bidx a i < a /\ bidx b i < b.
Proof.
  unfold bdim, bidx. intros H Hi.
  destruct (a =? b) eqn:E1; b2p.
  - injection H as <-. subst b. destruct (a =? 1) eqn:E; b2p; lia.
  - destruct (a =? 1) eqn:E2; b2p.
    + injection H as <-. subst a. destruct (b =? 1) eqn:E; b2p; lia.
    + destruct (b =? 1) eqn:E3; b2p; [|discriminate].
      injection H as <-. lia.
Qed.

Lemma add_ext a a' b b' : teq a a' -> teq b b' -> Meq (add a b) (add a' b').
Proof.
  intros Ha Hb. destruct (teq_sizes _ _ Ha) as (A0 & A1 & A2 & A3).
  destruct (teq_sizes _ _ Hb) as (B0 & B1 & B2 & B3).
  destruct Ha as [Sa Va], Hb as [Sb Vb]. unfold add, add_fn.
  rewrite <- Sa, <- Sb.
  apply checked_ext. unfold add_shape, shape.
  intros n c h w Hc q d i j Hq Hd Hi Hj.
  destruct (bdim (size0 a) (size0 b)) as [d0|] eqn:D0; [|discriminate].
  destruct (bdim (size1 a) (size1 b)) as [d1|] eqn:D1; [|discriminate].
  destruct (bdim (size2 a) (size2 b)) as [d2|] eqn:D2; [|discriminate].
  destruct (bdim (size3 a) (size3 b)) as [d3|] eqn:D3; [|discriminate].
  cbn [obind] in Hc. injection Hc as <- <- <- <-.
  destruct (bdim_idx _ _ _ q D0 Hq), (bdim_idx _ _ _ d D1 Hd),
    (bdim_idx _ _ _ i D2 Hi), (bdim_idx _ _ _ j D3 Hj).
  unfold bat. rewrite <- A0, <- A1, <- A2, <- A3, <- B0, <- B1, <- B2, <- B3.
  now rewrite Va, Vb.
Qed.

Lemma padded_ext x x' p n c i j :
  teq x x' -> n < size0 x -> c < size1 x ->
  padded x p n c i j = padded x' p n c i j.
Proof.
  intros Hx Hn Hc. destruct (teq_sizes _ _ Hx) as (E0 & E1 & E2 & E3).
  destruct Hx as [_ Hv]. unfold padded. rewrite <- E2, <- E3.
  destruct (_ && _) eqn:E; [|reflexivity]. b2p.
  apply Hv; lia.
Qed.

Lemma conv2d_ext m m' x x' :
  conv_eq m m' -> teq x x' -> Meq (conv2d m x) (conv2d m' x').
Proof.
  intros (C0 & C1 & C2 & C3 & C4 & Hw & Hb) Hx.
  pose proof Hx as [Hs _].
  unfold conv2d, conv2d_fn.
  replace (conv2d_shape m' (shape x')) with (conv2d_shape m (shape x))
    by (unfold conv2d_shape; now rewrite Hs, C0, C1, C2, C3, C4).
  rewrite <- C0, <- C1, <- C2, <- C3, <- C4.
  apply checked_ext. unfold conv2d_shape, shape.
  intros n c h w Hc q o i j Hq Ho Hi Hj.
  destruct (_ && _) eqn:E in Hc; [|discriminate]. b2p.
  injection Hc as <- <- <- <-.
  unfold conv2d_val. rewrite <- C0, <- C2, <- C3, <- C4, Hb by assumption.
  f_equal. apply sum_n_ext. intros ci Hci.
  apply sum_n_ext. intros di Hdi. apply sum_n_ext. intros dj Hdj.
  rewrite Hw by assumption. f_equal.
  apply padded_ext; [assumption|assumption|lia].
Qed.

Lemma conv_relu_ext m m' x x' :
  conv_eq m m' -> teq x x' -> Meq (conv_relu m x) (conv_relu m' x').
Proof.
  intros Hm Hx. unfold conv_relu.
  apply bind_ext; [now apply conv2d_ext | intros; now apply relu_ext].
Qed.

Lemma pool_window_in_range k h i di :
  1 <= k -> k <= h -> i < (h - k) / k + 1 -> di < k -> i * k + di < h.
Proof.
  intros Hk Hh Hi Hdi.
  assert (i <= (h - k) / k) by lia.
  pose proof (Nat.Div0.mul_div_le (h - k) k).
  nia.
Qed.

Lemma avg_pool2d_ext p x x' :
  teq x x' -> Meq (avg_pool2d p x) (avg_pool2d p x').
Proof.
  intros [Hs Hv]. unfold avg_pool2d, avg_pool2d_fn. rewrite <- Hs.
  apply checked_ext. unfold avg_pool_shape, shape.
  intros n c h w Hc q d i j Hq Hd Hi Hj.
  destruct (_ && _) eqn:E in Hc; [|discriminate]. b2p.
  injection Hc as <- <- <- <-.
  unfold avg_pool_val. f_equal.
  apply sum_n_ext. intros di Hdi. apply sum_n_ext. intros dj Hdj.
  apply Hv; try assumption; now apply pool_window_in_range.
Qed.

Lemma flat_index_in_range r c n b d :
  n <> 0 -> (r * c) mod n = 0 -> b < n -> d < r * c / n ->
  let k := b * (r * c / n) + d in k / c < r /\ k mod c < c.
Proof.
  intros Hn Hmod Hb Hd k.
  assert (E : r * c = n * (r * c / n)) by (now apply Nat.Div0.div_exact).
  assert (Hk : k < r * c) by (unfold k; nia).
  assert (Hc : c <> 0) by (intros ->; lia).
  split.
  - apply Nat.Div0.div_lt_upper_bound. now rewrite Nat.mul_comm.
  - now apply Nat.mod_upper_bound.
Qed.

Lemma view_ext n v v' : teq2 v v' -> Meq (view n v) (view n v').
Proof.
  intros [Hs Hv]. pose proof Hs as Hs'. unfold shape2 in Hs'.
  injection Hs' as Er Ec.
  unfold view, view_fn, flat. rewrite <- Hs, <- Er, <- Ec.
  apply checked_ext. unfold view_shape, shape2. cbn [fst snd].
  intros b c h w Hc q d i j Hq Hd Hi Hj.
  destruct (n =? 0) eqn:E0; [discriminate|].
  destruct (_ =? 0) eqn:E1 in Hc; [|discriminate]. b2p.
  injection Hc as <- <- <- <-.
  destruct (flat_index_in_range (rows v) (cols v) n q d E0 E1 Hq Hd).
  now apply Hv.
Qed.

End OpExt.

(** One step of a congruence proof, layer by layer. *)
Ltac ext_step :=
  first [ assumption
        | apply conv_relu_ext
        | apply bind_ext; [|intros ? ? ?]
        | apply add_ext
        | apply cat_ext
        | apply repeat_ext
        | apply view_ext
        | apply avg_pool2d_ext ].

Lemma tower_forward_ext s s' x x' v v' :
  tower_eq s s' -> teq x x' -> teq2 v v' ->
  Meq (TowerRepresentation.forward s x v) (TowerRepresentation.forward s' x' v').
Proof.
  intros (Er & Ep & H1 & H2 & H3 & H4 & H5 & H6 & H7 & H8 & Ea) Hx Hv.
  assert (Erows : rows v = rows v') by (destruct Hv as [[= -> _] _]; reflexivity).
  unfold TowerRepresentation.forward, TowerRepresentation.merged,
    TowerRepresentation.broadcast_viewpoint, TowerRepresentation.block1,
    TowerRepresentation.block2, TowerRepresentation.head.
  rewrite <- Er, <- Ep, <- Ea, <- Erows.
  repeat ext_step.
  destruct (TowerRepresentation.pool s).
  - now apply avg_pool2d_ext.
  - split; [assumption|reflexivity].
Qed.

Lemma pyramid_forward_ext s s' x x' v v' :
  pyramid_eq s s' -> teq x x' -> teq2 v v' ->
  Meq (PyramidRepresentation.forward s x v)
      (PyramidRepresentation.forward s' x' v').
Proof.
  intros (Er & H1 & H2 & H3 & H4) Hx Hv.
  destruct (teq_sizes _ _ Hx) as (E0 & E1 & E2 & E3).
  unfold PyramidRepresentation.forward, shape. cbv iota beta.
  rewrite <- E0, <- E2, <- E3.
  repeat ext_step.
  split; [assumption|reflexivity].
Qed.

(** C8: for the tower and for the pyramid, two forward calls on the same
    image, the same viewpoint and the same learned parameters have the same
    outcome: both raise, or both return the same tensor having performed the
    same operations.  Nothing outside the shapes of the arguments is read. *)
Theorem C8_forward_deterministic s s' q q' x x' v v' :
  teq x x' -> teq2 v v' ->
  (tower_eq s s' ->
   Meq (TowerRepresentation.forward s x v)
       (TowerRepresentation.forward s' x' v'))
  /\
  (pyramid_eq q q' ->
   Meq (PyramidRepresentation.forward q x v)
       (PyramidRepresentation.forward q' x' v')).
Proof.
  intros Hx Hv. split; intros Hs.
  - now apply tower_forward_ext.
  - now apply pyramid_forward_ext.
Qed.

Lemma C8_forward_deterministic_witness :
  let s := TowerRepresentation.init 3 7 256 true ones in
  let q := PyramidRepresentation.init 3 7 256 ones in
  let x := full (1, 3, 64, 64) 1 in
  let x' := mkTensor 1 3 64 64 (fun b _ _ _ => if b <? 1 then 1 else 5)%Q in
  let v := full2 (1, 7) 2 in
  let v' := mkTensor2 1 7 (fun b _ => if b <? 1 then 2 else 0)%Q in
  Meq (TowerRepresentation.forward s x v) (TowerRepresentation.forward s x' v')
  /\ Meq (PyramidRepresentation.forward q x v)
         (PyramidRepresentation.forward q x' v').
Proof.
  intros s q x x' v v'.
  assert (Hx : teq x x').
  { split; [reflexivity|]. intros n c i j Hn _ _ _.
    change (n < 1) in Hn. apply Nat.ltb_lt in Hn.
    change (1 = if n <? 1 then 1 else 5)%Q. now rewrite Hn. }
  assert (Hv : teq2 v v').
  { split; [reflexivity|]. intros n c Hn _.
    change (n < 1) in Hn. apply Nat.ltb_lt in Hn.
    change (2 = if n <? 1 then 2 else 0)%Q. now rewrite Hn. }
  destruct (C8_forward_deterministic s s q q x x' v v' Hx Hv) as [Ht Hp].
  split.
  - apply Ht. unfold tower_eq. repeat split; apply conv_eq_refl.
  - apply Hp. unfold pyramid_eq. repeat split; apply conv_eq_refl.
Defined.

(* ================================================================== *)
(** * Further properties of the two encoders *)
(* ================================================================== *)

Section MonadLaws.

Lemma bind_assoc {A B C} (m : M A) (f : A -> M B) (g : B -> M C) :
  bind (bind m f) g = bind m (fun a => bind (f a) g).
Proof.
  unfold bind. destruct m as [[a l]|]; [|reflexivity].
  destruct (f a) as [[b l']|]; [|reflexivity].
  destruct (g b) as [[c l'']|]; [|reflexivity].
  now rewrite app_assoc.
Qed.

Lemma bind_congr {A B} (m : M A) (f g : A -> M B) :
  (forall a, f a = g a) -> bind m f = bind m g.
Proof.
  intros H. unfold bind. destruct m as [[a l]|]; [|reflexivity].
  now rewrite H.
Qed.

Lemma pyramid_forward_split self x v :
  PyramidRepresentation.forward self x v
  = bind (pyramid_merged x v) (pyramid_layers self).
Proof.
  unfold PyramidRepresentation.forward, pyramid_merged, pyramid_layers, shape.
  cbv iota beta. rewrite bind_assoc.
  apply bind_congr. intros a. now rewrite bind_assoc.
Qed.

End MonadLaws.

(* ================================================================== *)
(** * The pyramid, layer by layer *)
(* ================================================================== *)

Section PyramidLayers.

Lemma relu1_rectified z : spec_rectified z (relu1 z).
Proof.
  unfold spec_rectified, relu1. split; intros H.
  - apply Qle_bool_iff in H. now rewrite H.
  - destruct (Qle_bool 0 z) eqn:E; [|reflexivity].
    apply Qle_bool_iff in E. exfalso. exact (Qlt_not_le _ _ H E).
Qed.

Lemma conv_out_stride s n : 1 <= s -> s <= n -> conv_out n s s 0 = n / s.
Proof.
  intros Hs Hn. unfold conv_out.
  replace (n + 2 * 0 - s) with (n - s) by lia.
  replace n with (1 * s + (n - s)) at 2 by lia.
  rewrite Nat.div_add_l by lia. lia.
Qed.

Lemma stride_window_in_range s n i di :
  1 <= s -> i < n / s -> di < s -> i * s + di < n.
Proof.
  intros Hs Hi Hd. pose proof (Nat.Div0.mul_div_le n s). nia.
Qed.

(** What [relu(conv(x))] computes, for a layer whose stride equals its
    kernel size and that does not pad. *)
Lemma conv_relu_strided_spec th cin cout s x y l :
  conv_relu (nn_Conv2d cin cout s s 0 th) x = Some (y, l) ->
  spec_layer th cin cout s x y.
Proof.
  intros H. apply conv_relu_inv in H as (S & V & _).
  unfold shape at 1, conv2d_shape in S.
  cbn [nn_Conv2d in_channels out_channels kernel_size stride padding] in S.
  destruct (_ && _) eqn:E in S; [|discriminate]. b2p.
  assert (S0 : shape y = (size0 x, cout, conv_out (size2 x) s s 0,
                          conv_out (size3 x) s s 0)) by congruence.
  clear S. rewrite !conv_out_stride in S0 by lia.
  split; [assumption|]. split; [exact S0|].
  apply shape_sizes in S0 as (Y0 & Y1 & Y2 & Y3).
  intros b o i j Hb Ho Hi Hj. rewrite V. rewrite Y2 in Hi. rewrite Y3 in Hj.
  replace (spec_strided_conv th cin s x b o i j)
    with (conv2d_val (nn_Conv2d cin cout s s 0 th) x b o i j);
    [apply relu1_rectified|].
  unfold conv2d_val, spec_strided_conv.
  cbn [nn_Conv2d in_channels out_channels kernel_size stride padding weight bias].
  f_equal. apply sum_n_ext. intros c Hc.
  apply sum_n_ext. intros di Hdi. apply sum_n_ext. intros dj Hdj.
  f_equal. unfold padded.
  pose proof (stride_window_in_range s (size2 x) i di) as B2.
  pose proof (stride_window_in_range s (size3 x) j dj) as B3.
  replace (0 <=? i * s + di) with true by (symmetry; apply Nat.leb_le; lia).
  replace (0 <=? j * s + dj) with true by (symmetry; apply Nat.leb_le; lia).
  replace (i * s + di <? size2 x + 0) with true
    by (symmetry; apply Nat.ltb_lt; lia).
  replace (j * s + dj <? size3 x + 0) with true
    by (symmetry; apply Nat.ltb_lt; lia).
  cbn [andb]. now rewrite !Nat.sub_0_r, (Nat.mul_comm i s), (Nat.mul_comm j s).
Qed.

End PyramidLayers.

(** C6: a successful pyramid forward pass sends the merged tensor through
    exactly four convolutions in sequence, each the input of the next, with
    strides 2, 2, 2, 8 and output depths r_dim/8, r_dim/4, r_dim/2, r_dim in
    that order.  Every layer's output is, element by element, the
    rectified-linear image of the strided convolution of its input: equal to
    the convolution where that is non-negative, zero where it is negative.
    The last layer's output is the returned tensor, and the pass performs
    neither an addition nor a pooling. *)
Theorem C6_pyramid_operations n vd k th x v r tr :
  PyramidRepresentation.forward (PyramidRepresentation.init n vd k th) x v
  = Some (r, tr) ->
  (exists m a1 a2 a3,
      pyramid_merged x v = Some (m, [OpView; OpRepeat; OpCat])
      /\ spec_layer (th 1) (n + vd) (k / 8) 2 m a1
      /\ spec_layer (th 2) (k / 8) (k / 4) 2 a1 a2
      /\ spec_layer (th 3) (k / 4) (k / 2) 2 a2 a3
      /\ spec_layer (th 4) (k / 2) k 8 a3 r)
  /\ tr = [OpView; OpRepeat; OpCat;
           OpConv (n + vd) (k / 8) 2 2 0; OpRelu;
           OpConv (k / 8) (k / 4) 2 2 0; OpRelu;
           OpConv (k / 4) (k / 2) 2 2 0; OpRelu;
           OpConv (k / 2) k 8 8 0; OpRelu]
  /\ convs tr = [(2, k / 8); (2, k / 4); (2, k / 2); (8, k)]
  /\ relu_after_each_conv tr = true
  /\ existsb is_add tr = false
  /\ existsb is_pool tr = false.
Proof.
  intros H. pose proof (pyramid_trace _ _ _ _ _ _ _ _ H) as Htr.
  split; [|subst tr; now repeat split].
  rewrite pyramid_forward_split in H.
  apply bind_inv in H as (m & lm & l' & Hm & H & Etr).
  unfold pyramid_layers in H.
  cbn [PyramidRepresentation.conv1 PyramidRepresentation.conv2
       PyramidRepresentation.conv3 PyramidRepresentation.conv4
       PyramidRepresentation.init] in H.
  apply bind_inv in H as (a1 & l1 & l1' & H1 & H & ->).
  apply bind_inv in H as (a2 & l2 & l2' & H2 & H & ->).
  apply bind_inv in H as (a3 & l3 & l3' & H3 & H & ->).
  apply bind_inv in H as (a4 & l4 & l4' & H4 & H & ->).
  apply ret_inv in H as (-> & ->).
  assert (Elm : lm = [OpView; OpRepeat; OpCat]).
  { pose proof Hm as Hm'. unfold pyramid_merged, shape in Hm'.
    cbv iota beta in Hm'. run_inv Hm'. reflexivity. }
  subst lm.
  exists m, a1, a2, a3. split; [exact Hm|].
  repeat split; eapply conv_relu_strided_spec; eassumption.
Qed.

Lemma C6_pyramid_operations_witness :
  exists r tr,
    PyramidRepresentation.forward (PyramidRepresentation.init 3 7 256 ones)
      (full (1, 3, 64, 64) 0) (full2 (1, 7) 0) = Some (r, tr)
    /\ (exists m a1 a2 a3,
           pyramid_merged (full (1, 3, 64, 64) 0) (full2 (1, 7) 0)
           = Some (m, [OpView; OpRepeat; OpCat])
           /\ spec_layer (ones 1) (3 + 7) (256 / 8) 2 m a1
           /\ spec_layer (ones 2) (256 / 8) (256 / 4) 2 a1 a2
           /\ spec_layer (ones 3) (256 / 4) (256 / 2) 2 a2 a3
           /\ spec_layer (ones 4) (256 / 2) 256 8 a3 r)
    /\ convs tr = [(2, 256 / 8); (2, 256 / 4); (2, 256 / 2); (8, 256)]
    /\ relu_after_each_conv tr = true
    /\ existsb is_add tr = false
    /\ existsb is_pool tr = false.
Proof.
  destruct (pyramid_forward_ok 3 7 256 ones (full (1, 3, 64, 64) 0)
              (full2 (1, 7) 0) eq_refl) as (r & tr & E & _).
  destruct (C6_pyramid_operations 3 7 256 ones _ _ r tr E)
    as (Hl & _ & Hc & Hr & Ha & Hp).
  exists r, tr. split; [exact E|]. split; [exact Hl|].
  split; [exact Hc|]. split; [exact Hr|]. split; [exact Ha|exact Hp].
Defined.

(** X1: every tensor the tower returns has r_dim channels and the batch size
    of the image; its spatial extent is 1 x 1 with pooling and
    (r_dim // 16) x (r_dim // 16) without, whatever the image size was. *)
Theorem tower_output_shape n vd k p th x v r tr :
  TowerRepresentation.forward (TowerRepresentation.init n vd k p th) x v
  = Some (r, tr) ->
  shape r = (size0 x, k, if p then 1 else k / 16, if p then 1 else k / 16).
Proof.
  intros H. apply tower_forward_run in H as [Hok Hs].
  unfold tower_ok, shape, shape2 in Hok. b2p.
  rewrite Hs. destruct p; [reflexivity|]. congruence.
Qed.

Lemma tower_output_shape_witness :
  (exists r tr,
     TowerRepresentation.forward (TowerRepresentation.init 3 7 40 true ones)
       (full (2, 3, 11, 9) 0) (full2 (2, 7) 0) = Some (r, tr)
     /\ shape r = (2, 40, 1, 1))
  /\
  (exists r tr,
     TowerRepresentation.forward (TowerRepresentation.init 3 7 40 false ones)
       (full (2, 3, 11, 9) 0) (full2 (2, 7) 0) = Some (r, tr)
     /\ shape r = (2, 40, 2, 2)).
Proof.
  split.
  - destruct (tower_forward_ok 3 7 40 true ones (full (2, 3, 11, 9) 0)
                (full2 (2, 7) 0) eq_refl) as (r & tr & E & _).
    exists r, tr. split; [exact E|].
    exact (tower_output_shape 3 7 40 true ones _ _ r tr E).
  - destruct (tower_forward_ok 3 7 40 false ones (full (2, 3, 11, 9) 0)
                (full2 (2, 7) 0) eq_refl) as (r & tr & E & _).
    exists r, tr. split; [exact E|].
    exact (tower_output_shape 3 7 40 false ones _ _ r tr E).
Defined.

(** X2: the tower accepts an image and a viewpoint exactly when the batch is
    not empty, the viewpoint has one row of v_dim entries per image, the
    image has the n_channels >= 1 channels the first layer expects,
    r_dim >= 16, and height and width both lie in the window
    4 * (r_dim // 16) .. 4 * (r_dim // 16) + 3. *)
Theorem tower_accepts_iff n vd k p th x v :
  (exists r tr,
     TowerRepresentation.forward (TowerRepresentation.init n vd k p th) x v
     = Some (r, tr))
  <->
  (1 <= size0 x /\ rows v = size0 x /\ cols v = vd
   /\ size1 x = n /\ 1 <= n /\ 16 <= k
   /\ 4 * (k / 16) <= size2 x < 4 * (k / 16) + 4
   /\ 4 * (k / 16) <= size3 x < 4 * (k / 16) + 4).
Proof.
  split.
  - intros (r & tr & H). apply tower_forward_run in H as [Hok _].
    unfold tower_ok, shape, shape2 in Hok. b2p. lia.
  - intros H.
    destruct (tower_forward_ok n vd k p th x v) as (r & tr & E & _);
      [|now exists r, tr].
    unfold tower_ok, shape, shape2.
    repeat rewrite andb_true_iff. repeat split;
      first [apply Nat.leb_le; lia | apply Nat.eqb_eq; lia].
Qed.

(** X3: the pyramid accepts an image and a viewpoint exactly when the image
    batch B is not empty and divides the number of viewpoint entries, the
    image channels plus the entries per image make n_channels + v_dim >= 1,
    r_dim >= 8, and height and width are both at least 64. *)
Theorem pyramid_accepts_iff n vd k th x v :
  (exists r tr,
     PyramidRepresentation.forward (PyramidRepresentation.init n vd k th) x v
     = Some (r, tr))
  <->
  (1 <= size0 x /\ (rows v * cols v) mod size0 x = 0
   /\ size1 x + rows v * cols v / size0 x = n + vd /\ 1 <= n + vd
   /\ 8 <= k /\ 64 <= size2 x /\ 64 <= size3 x).
Proof.
  split.
  - intros (r & tr & H). apply pyramid_forward_run in H as [Hok _].
    unfold pyramid_ok, shape, shape2 in Hok. b2p. now repeat split.
  - intros (H1 & H2 & H3 & H4 & H5 & H6 & H7).
    destruct (pyramid_forward_ok n vd k th x v) as (r & tr & E & _);
      [|now exists r, tr].
    unfold pyramid_ok, shape, shape2.
    repeat rewrite andb_true_iff. repeat split;
      first [now apply Nat.leb_le | now apply Nat.eqb_eq].
Qed.

(** X5: both encoders raise on an empty batch: an image with batch size 0
    is rejected whatever the viewpoint and the layers are. *)
Theorem empty_batch_rejected n vd k p th (q : PyramidRepresentation.t) x v :
  size0 x = 0 ->
  TowerRepresentation.forward (TowerRepresentation.init n vd k p th) x v = None
  /\ PyramidRepresentation.forward q x v = None.
Proof.
  intros H0. split.
  - apply tower_forward_fail. unfold tower_ok, shape, shape2.
    rewrite H0. destruct (1 <=? rows v) eqn:E1; [|reflexivity].
    destruct (0 =? rows v) eqn:E2; [|reflexivity]. b2p. lia.
  - unfold PyramidRepresentation.forward, shape. rewrite H0. reflexivity.
Qed.

Lemma empty_batch_rejected_witness :
  TowerRepresentation.forward (TowerRepresentation.init 3 7 256 true ones)
    (full (0, 3, 64, 64) 0) (full2 (0, 7) 0) = None
  /\ PyramidRepresentation.forward (PyramidRepresentation.init 3 7 256 ones)
       (full (0, 3, 64, 64) 0) (full2 (0, 7) 0) = None.
Proof.
  apply (empty_batch_rejected 3 7 256 true ones
           (PyramidRepresentation.init 3 7 256 ones)
           (full (0, 3, 64, 64) 0) (full2 (0, 7) 0)).
  reflexivity.
Defined.

(** X6: every tensor the pyramid returns has r_dim channels, the batch size
    of the image, and height and width H // 64 and W // 64, both at least 1. *)
Theorem pyramid_output_shape n vd k th x v r tr :
  PyramidRepresentation.forward (PyramidRepresentation.init n vd k th) x v
  = Some (r, tr) ->
  shape r = (size0 x, k, size2 x / 64, size3 x / 64)
  /\ 1 <= size2 r /\ 1 <= size3 r.
Proof.
  intros H. apply pyramid_forward_run in H as [Hok Hs].
  unfold pyramid_ok, shape, shape2 in Hok. b2p.
  split; [exact Hs|].
  apply shape_sizes in Hs as (_ & _ & -> & ->). lia.
Qed.

Lemma pyramid_output_shape_witness :
  exists r tr,
    PyramidRepresentation.forward (PyramidRepresentation.init 3 7 64 ones)
      (full (2, 3, 200, 64) 0) (full2 (2, 7) 0) = Some (r, tr)
    /\ shape r = (2, 64, 3, 1) /\ 1 <= size2 r /\ 1 <= size3 r.
Proof.
  destruct (pyramid_forward_ok 3 7 64 ones (full (2, 3, 200, 64) 0)
              (full2 (2, 7) 0) eq_refl) as (r & tr & E & _).
  exists r, tr. split; [exact E|].
  exact (pyramid_output_shape 3 7 64 ones _ _ r tr E).
Defined.

Section PyramidViewpoint.

Lemma flat_index_lt r c n b d :
  n <> 0 -> (r * c) mod n = 0 -> b < n -> d < r * c / n ->
  b * (r * c / n) + d < r * c.
Proof.
  intros Hn Hmod Hb Hd.
  assert (E : r * c = n * (r * c / n)) by (now apply Nat.Div0.div_exact).
  nia.
Qed.

Lemma view_flat_ext n v v' :
  rows v * cols v = rows v' * cols v' ->
  (forall k, k < rows v * cols v -> flat v k = flat v' k) ->
  Meq (view n v) (view n v').
Proof.
  intros E Hf. unfold view, view_fn.
  replace (view_shape n (shape2 v')) with (view_shape n (shape2 v))
    by (unfold view_shape, shape2; cbn [fst snd]; now rewrite E).
  rewrite <- E.
  apply checked_ext. unfold view_shape, shape2. cbn [fst snd].
  intros b c h w Hc q d i j Hq Hd Hi Hj.
  destruct (n =? 0) eqn:E0; [discriminate|].
  destruct (_ =? 0) eqn:E1 in Hc; [|discriminate]. b2p.
  injection Hc as <- <- <- <-.
  apply Hf. now apply flat_index_lt.
Qed.

Lemma pyramid_layers_ext self a a' :
  teq a a' -> Meq (pyramid_layers self a) (pyramid_layers self a').
Proof.
  intros H. unfold pyramid_layers.
  repeat first [ assumption
               | apply conv_relu_ext; [apply conv_eq_refl|]
               | apply bind_ext; [|intros ? ? ?] ].
  split; [assumption|reflexivity].
Qed.

End PyramidViewpoint.

(** X7: in a successful pyramid forward pass on a viewpoint with one row per
    image, the tensor that enters the first layer has the image's own
    channels first, unchanged, followed by one constant plane per viewpoint
    entry, at the full resolution of the image. *)
Theorem pyramid_viewpoint_broadcast self x v r tr :
  rows v = size0 x ->
  PyramidRepresentation.forward self x v = Some (r, tr) ->
  exists m,
    pyramid_merged x v = Some (m, [OpView; OpRepeat; OpCat])
    /\ shape m = (size0 x, size1 x + cols v, size2 x, size3 x)
    /\ forall b i j, b < size0 x -> i < size2 x -> j < size3 x ->
         (forall c, c < size1 x -> at4 m b c i j = at4 x b c i j)
         /\ (forall c, c < cols v -> at4 m b (size1 x + c) i j = at2 v b c).
Proof.
  intros Hr H. rewrite pyramid_forward_split in H.
  apply bind_inv in H as (m & lm & l' & Hm & _ & _).
  pose proof Hm as Hm0.
  unfold pyramid_merged, shape in Hm. cbv iota beta in Hm.
  apply bind_inv in Hm as (v1 & l1 & l2 & Hv1 & Hm & ->).
  apply bind_inv in Hm as (v2 & l3 & l4 & Hv2 & Hcat & ->).
  apply view_inv in Hv1 as (S1 & V1 & ->).
  apply repeat_inv in Hv2 as (S2 & V2 & ->).
  apply cat_inv in Hcat as (S3 & V3 & ->).
  rewrite <- Hr in S1, V1. unfold shape2 in S1. rewrite view_shape_rows in S1.
  destruct (1 <=? rows v) eqn:Er; [|discriminate]. b2p.
  assert (S1' : shape v1 = (rows v, cols v, 1, 1)) by congruence. clear S1.
  rewrite S1' in S2. cbn -[Nat.mul] in S2.
  rewrite !Nat.mul_1_r, !Nat.mul_1_l, Hr in S2.
  rewrite S2 in S3. unfold cat_shape, shape in S3.
  rewrite !Nat.eqb_refl in S3. cbn [andb] in S3.
  assert (S3' : shape m = (size0 x, size1 x + cols v, size2 x, size3 x))
    by (unfold shape; congruence).
  clear S3.
  apply shape_sizes in S1' as (Z0 & Z1 & Z2 & Z3).
  exists m. split; [exact Hm0|]. split; [exact S3'|].
  intros b i j Hb Hi Hj. rewrite V3. split; intros c Hc.
  - apply Nat.ltb_lt in Hc. now rewrite Hc.
  - assert (Hge : (size1 x + c <? size1 x) = false) by (apply Nat.ltb_ge; lia).
    rewrite Hge. replace (size1 x + c - size1 x) with c by lia.
    rewrite V2, Z0, Z1, Z2, Z3, V1.
    rewrite !Nat.mod_small by lia.
    apply flat_row_major; lia.
Qed.

Lemma pyramid_viewpoint_broadcast_witness :
  let x := full (1, 2, 64, 64) 5 in
  let v := v_ramp 3 in
  exists m,
    pyramid_merged x v = Some (m, [OpView; OpRepeat; OpCat])
    /\ shape m = (1, 5, 64, 64)
    /\ at4 m 0 1 63 0 = 5%Q
    /\ at4 m 0 (2 + 2) 63 0 = 2%Q.
Proof.
  intros x v.
  destruct (pyramid_forward_ok 2 3 8 ones x v eq_refl) as (r & tr & E & _).
  destruct (pyramid_viewpoint_broadcast (PyramidRepresentation.init 2 3 8 ones)
              x v r tr eq_refl E) as (m & Em & Sm & Vm).
  exists m. split; [exact Em|]. split; [exact Sm|].
  assert (H0 : 0 < 1) by (apply Nat.ltb_lt; reflexivity).
  assert (H63 : 63 < 64) by (apply Nat.ltb_lt; reflexivity).
  assert (H064 : 0 < 64) by (apply Nat.ltb_lt; reflexivity).
  destruct (Vm 0 63 0 H0 H63 H064) as [Vx Vv].
  split.
  - apply (Vx 1). apply Nat.ltb_lt. reflexivity.
  - apply (Vv 2). apply Nat.ltb_lt. reflexivity.
Defined.

(** X8: the pyramid reads the viewpoint only through its row-major sequence
    of entries: two viewpoints with the same entries in the same order, cut
    into rows differently, give the same outcome. *)
Theorem pyramid_viewpoint_layout self x v v' :
  rows v * cols v = rows v' * cols v' ->
  (forall k, k < rows v * cols v -> flat v k = flat v' k) ->
  Meq (PyramidRepresentation.forward self x v)
      (PyramidRepresentation.forward self x v').
Proof.
  intros E Hf. rewrite !pyramid_forward_split.
  apply bind_ext; [|intros a a'; apply pyramid_layers_ext].
  unfold pyramid_merged, shape. cbv iota beta.
  apply bind_ext; [now apply view_flat_ext|].
  intros a a' Ha. apply bind_ext; [now apply repeat_ext|].
  intros b b' Hb. apply cat_ext; [apply teq_refl | exact Hb].
Qed.

Lemma pyramid_viewpoint_layout_witness :
  let v := mkTensor2 2 3 (fun r c => inject_Z (Z.of_nat (3 * r + c))) in
  let v' := v_ramp 6 in
  Meq (PyramidRepresentation.forward (PyramidRepresentation.init 2 6 8 ones)
         (full (1, 2, 64, 64) 1) v)
      (PyramidRepresentation.forward (PyramidRepresentation.init 2 6 8 ones)
         (full (1, 2, 64, 64) 1) v').
Proof.
  intros v v'.
  apply (pyramid_viewpoint_layout (PyramidRepresentation.init 2 6 8 ones)
           (full (1, 2, 64, 64) 1) v v').
  - reflexivity.
  - intros k Hk. change (k < 6) in Hk.
    do 6 (destruct k as [|k]; [reflexivity|]).
    exfalso. apply Nat.ltb_lt in Hk. discriminate.
Defined.

(** X9: with the same parameters, the pooled tower returns the mean of the
    unpooled tower's output over its whole (r_dim // 16) x (r_dim // 16)
    map, channel by channel, and differs from it by the one pooling call. *)
Theorem tower_pool_is_mean n vd k th x v r tr :
  TowerRepresentation.forward (TowerRepresentation.init n vd k true th) x v
  = Some (r, tr) ->
  exists r' tr',
    TowerRepresentation.forward (TowerRepresentation.init n vd k false th) x v
    = Some (r', tr')
    /\ tr = tr' ++ [OpAvgPool (k / 16)]
    /\ size2 r' = k / 16 /\ size3 r' = k / 16
    /\ forall b c,
         at4 r b c 0 0
         = (sum_n (k / 16) (fun i => sum_n (k / 16) (fun j => at4 r' b c i j))
            / inject_Z (Z.of_nat (k / 16 * (k / 16))))%Q.
Proof.
  intros H. unfold TowerRepresentation.forward in H.
  apply bind_inv in H as (m & lm & l1 & Hm & H & ->).
  apply bind_inv in H as (y & ly & l2 & Hy & H & ->).
  unfold TowerRepresentation.head in H.
  apply bind_inv in H as (z & lz & l3 & Hz & H & ->).
  cbn [TowerRepresentation.pool TowerRepresentation.init
       TowerRepresentation.avgpool] in H.
  apply avg_pool2d_inv in H as (_ & Hv & ->). cbn [pool_kernel] in *.
  assert (Hrun :
    TowerRepresentation.forward (TowerRepresentation.init n vd k false th) x v
    = Some (z, lm ++ ly ++ lz ++ [])).
  { unfold TowerRepresentation.forward.
    change (TowerRepresentation.merged
              (TowerRepresentation.init n vd k false th) x v)
      with (TowerRepresentation.merged
              (TowerRepresentation.init n vd k true th) x v).
    rewrite Hm. unfold bind at 1.
    change (TowerRepresentation.block2
              (TowerRepresentation.init n vd k false th) m)
      with (TowerRepresentation.block2
              (TowerRepresentation.init n vd k true th) m).
    rewrite Hy. unfold bind at 1. unfold TowerRepresentation.head.
    change (TowerRepresentation.conv8 (TowerRepresentation.init n vd k false th))
      with (TowerRepresentation.conv8 (TowerRepresentation.init n vd k true th)).
    rewrite Hz. reflexivity. }
  exists z, (lm ++ ly ++ lz ++ []). split; [exact Hrun|].
  pose proof (tower_output_shape _ _ _ _ _ _ _ _ _ Hrun) as Hs.
  apply shape_sizes in Hs as (_ & _ & S2 & S3).
  split; [now rewrite app_nil_r, <- !app_assoc|].
  split; [exact S2|]. split; [exact S3|].
  intros b c. now rewrite Hv.
Qed.

Lemma tower_pool_is_mean_witness :
  exists r r' tr',
    TowerRepresentation.forward (TowerRepresentation.init 3 7 32 false ones)
      (full (1, 3, 8, 8) 1) (full2 (1, 7) 1) = Some (r', tr')
    /\ TowerRepresentation.forward (TowerRepresentation.init 3 7 32 true ones)
         (full (1, 3, 8, 8) 1) (full2 (1, 7) 1)
       = Some (r, tr' ++ [OpAvgPool 2])
    /\ at4 r 0 5 0 0
       = ((0 + (0 + at4 r' 0 5 0 0 + at4 r' 0 5 0 1)
            + (0 + at4 r' 0 5 1 0 + at4 r' 0 5 1 1)) / 4)%Q.
Proof.
  destruct (tower_forward_ok 3 7 32 true ones (full (1, 3, 8, 8) 1)
              (full2 (1, 7) 1) eq_refl) as (r & tr & E & _).
  destruct (tower_pool_is_mean 3 7 32 ones _ _ r tr E)
    as (r' & tr' & E' & Etr & _ & _ & Hv).
  exists r, r', tr'. split; [exact E'|].
  split; [rewrite Etr in E; exact E|].
  exact (Hv 0 5).
Defined.

Section Residual.

Lemma bidx_in_range size i : i < size -> bidx size i = i.
Proof.
  intros H. unfold bidx. destruct (size =? 1) eqn:E; [|reflexivity].
  b2p. lia.
Qed.

Lemma add_same_shape a b y l :
  shape b = shape a -> add a b = Some (y, l) ->
  shape y = shape a
  /\ forall n c i j, n < size0 a -> c < size1 a -> i < size2 a -> j < size3 a ->
       at4 y n c i j = (at4 a n c i j + at4 b n c i j)%Q.
Proof.
  intros Hs H. apply add_inv in H as (S & V & _).
  pose proof Hs as Hs'. apply shape_sizes in Hs' as (B0 & B1 & B2 & B3).
  rewrite Hs in S. unfold shape at 1 2, add_shape, bdim in S.
  rewrite !Nat.eqb_refl in S. cbn [obind] in S.
  split; [unfold shape at 2; congruence|].
  intros n c i j Hn Hc Hi Hj. rewrite V. unfold bat.
  rewrite B0, B1, B2, B3. now rewrite !bidx_in_range.
Qed.

Lemma conv2d_shape_inv m n c h w s :
  conv2d_shape m (n, c, h, w) = Some s ->
  s = (n, out_channels m,
       conv_out h (kernel_size m) (stride m) (padding m),
       conv_out w (kernel_size m) (stride m) (padding m))
  /\ kernel_size m <= h + 2 * padding m
  /\ kernel_size m <= w + 2 * padding m.
Proof.
  unfold conv2d_shape. destruct (_ && _) eqn:E; [|discriminate].
  intros [= <-]. b2p. now repeat split.
Qed.

Lemma conv_relu_shape m x y l :
  conv_relu m x = Some (y, l) ->
  shape y = (size0 x, out_channels m,
             conv_out (size2 x) (kernel_size m) (stride m) (padding m),
             conv_out (size3 x) (kernel_size m) (stride m) (padding m))
  /\ kernel_size m <= size2 x + 2 * padding m
  /\ kernel_size m <= size3 x + 2 * padding m.
Proof.
  intros H. apply conv_relu_inv in H as (S & _ & _).
  unfold shape at 1 in S. apply conv2d_shape_inv in S as (S & H1 & H2).
  now repeat split.
Qed.

End Residual.

(** X10: in each skip-connected block of the tower the two branches meet
    with identical shapes, so the addition never broadcasts: every element of
    the block's output is the sum of the two branch elements at the same
    index. *)
Theorem tower_residual_sums n vd k p th :
  let self := TowerRepresentation.init n vd k p th in
  (forall x y l, TowerRepresentation.block1 self x = Some (y, l) ->
     exists skip_in l0 skip_out l1 x3 l2 a l3,
       conv_relu (TowerRepresentation.conv1 self) x = Some (skip_in, l0)
       /\ conv_relu (TowerRepresentation.conv2 self) skip_in = Some (skip_out, l1)
       /\ conv_relu (TowerRepresentation.conv3 self) skip_in = Some (x3, l2)
       /\ conv_relu (TowerRepresentation.conv4 self) x3 = Some (a, l3)
       /\ shape a = shape y /\ shape skip_out = shape y
       /\ forall b c i j, b < size0 y -> c < size1 y -> i < size2 y -> j < size3 y ->
            at4 y b c i j = (at4 a b c i j + at4 skip_out b c i j)%Q)
  /\
  (forall m y l, TowerRepresentation.block2 self m = Some (y, l) ->
     exists skip_out l1 x3 l2 a l3,
       conv_relu (TowerRepresentation.conv5 self) m = Some (skip_out, l1)
       /\ conv_relu (TowerRepresentation.conv6 self) m = Some (x3, l2)
       /\ conv_relu (TowerRepresentation.conv7 self) x3 = Some (a, l3)
       /\ shape a = shape y /\ shape skip_out = shape y
       /\ forall b c i j, b < size0 y -> c < size1 y -> i < size2 y -> j < size3 y ->
            at4 y b c i j = (at4 a b c i j + at4 skip_out b c i j)%Q).
Proof.
  intros self. split.
  - intros x y l H. unfold TowerRepresentation.block1 in H.
    apply bind_inv in H as (skip_in & l0 & l0' & E0 & H & _).
    apply bind_inv in H as (skip_out & l1 & l1' & E1 & H & _).
    apply bind_inv in H as (x3 & l2 & l2' & E2 & H & _).
    apply bind_inv in H as (a & l3 & l3' & E3 & H & _).
    exists skip_in, l0, skip_out, l1, x3, l2, a, l3.
    repeat (split; [assumption|]).
    pose proof (conv_relu_shape _ _ _ _ E1) as (S1 & K1 & K1').
    pose proof (conv_relu_shape _ _ _ _ E2) as (S2 & K2 & K2').
    pose proof (conv_relu_shape _ _ _ _ E3) as (S3 & K3 & K3').
    cbn [TowerRepresentation.conv2 TowerRepresentation.conv3
         TowerRepresentation.conv4 TowerRepresentation.init self nn_Conv2d
         out_channels kernel_size stride padding] in *.
    apply shape_sizes in S2 as (Z0 & _ & Z2 & Z3).
    rewrite conv_out_same3 in Z2, Z3 by assumption.
    rewrite Z0, Z2, Z3 in S3.
    assert (Hs : shape skip_out = shape a) by congruence.
    destruct (add_same_shape a skip_out y _ Hs H) as (Sy & Vy).
    split; [now symmetry|]. split; [congruence|].
    unfold shape in Sy. injection Sy as Y0 Y1 Y2 Y3.
    intros b c i j Hb Hc Hi Hj. rewrite Y0, Y1, Y2, Y3 in *.
    exact (Vy b c i j Hb Hc Hi Hj).
  - intros m y l H. unfold TowerRepresentation.block2 in H.
    apply bind_inv in H as (skip_out & l1 & l1' & E1 & H & _).
    apply bind_inv in H as (x3 & l2 & l2' & E2 & H & _).
    apply bind_inv in H as (a & l3 & l3' & E3 & H & _).
    exists skip_out, l1, x3, l2, a, l3.
    repeat (split; [assumption|]).
    pose proof (conv_relu_shape _ _ _ _ E1) as (S1 & K1 & K1').
    pose proof (conv_relu_shape _ _ _ _ E2) as (S2 & K2 & K2').
    pose proof (conv_relu_shape _ _ _ _ E3) as (S3 & K3 & K3').
    cbn [TowerRepresentation.conv5 TowerRepresentation.conv6
         TowerRepresentation.conv7 TowerRepresentation.init self nn_Conv2d
         out_channels kernel_size stride padding] in *.
    apply shape_sizes in S2 as (Z0 & _ & Z2 & Z3).
    rewrite conv_out_same3 in Z2, Z3 by assumption.
    rewrite !conv_out_same3 in S1 by assumption.
    rewrite Z0, Z2, Z3 in S3.
    rewrite !conv_out_same3 in S3 by assumption.
    assert (Hs : shape skip_out = shape a) by congruence.
    destruct (add_same_shape a skip_out y _ Hs H) as (Sy & Vy).
    split; [now symmetry|]. split; [congruence|].
    unfold shape in Sy. injection Sy as Y0 Y1 Y2 Y3.
    intros b c i j Hb Hc Hi Hj. rewrite Y0, Y1, Y2, Y3 in *.
    exact (Vy b c i j Hb Hc Hi Hj).
Qed.

(* ================================================================== *)
(** * The tower, layer by layer *)
(* ================================================================== *)

Section TowerLayers.

Lemma padded_one x b c r s : padded x 1 b c r s = spec_zero_border x b c r s.
Proof.
  unfold padded, spec_zero_border.
  replace (r <? size2 x + 1) with (r <=? size2 x).
  - replace (s <? size3 x + 1) with (s <=? size3 x); [reflexivity|].
    destruct (Nat.leb_spec s (size3 x)), (Nat.ltb_spec s (size3 x + 1));
      try reflexivity; lia.
  - destruct (Nat.leb_spec r (size2 x)), (Nat.ltb_spec r (size2 x + 1));
      try reflexivity; lia.
Qed.

(** What [relu(conv(x))] computes, for a 3 x 3 layer of stride 1 that pads
    by one. *)
Lemma conv_relu_same_spec th cin cout x y l :
  conv_relu (nn_Conv2d cin cout 3 1 1 th) x = Some (y, l) ->
  spec_same_layer th cin cout x y.
Proof.
  intros H. apply conv_relu_inv in H as (S & V & _).
  unfold shape at 1, conv2d_shape in S.
  cbn [nn_Conv2d in_channels out_channels kernel_size stride padding] in S.
  destruct (_ && _) eqn:E in S; [|discriminate]. b2p.
  assert (S0 : shape y = (size0 x, cout, conv_out (size2 x) 3 1 1,
                          conv_out (size3 x) 3 1 1)) by congruence.
  clear S. rewrite !conv_out_same3 in S0 by assumption.
  split; [assumption|]. split; [exact S0|].
  intros b o i j Hb Ho Hi Hj. rewrite V.
  replace (spec_same_conv th cin x b o i j)
    with (conv2d_val (nn_Conv2d cin cout 3 1 1 th) x b o i j);
    [apply relu1_rectified|].
  unfold conv2d_val, spec_same_conv.
  cbn [nn_Conv2d in_channels out_channels kernel_size stride padding weight bias].
  f_equal. apply sum_n_ext. intros c Hc.
  apply sum_n_ext. intros di Hdi. apply sum_n_ext. intros dj Hdj.
  f_equal. now rewrite padded_one, !Nat.mul_1_r.
Qed.

Lemma add_spec a b y l :
  shape b = shape a -> add a b = Some (y, l) -> spec_sum a b y.
Proof.
  intros Hs H. destruct (add_same_shape a b y l Hs H) as (Sy & Vy).
  split; [now symmetry|]. split; [congruence|].
  unfold shape in Sy. injection Sy as Y0 Y1 Y2 Y3.
  intros n c i j Hn Hc Hi Hj. apply Vy; congruence.
Qed.

Lemma cat_spec a b y l : cat a b = Some (y, l) -> spec_cat a b y.
Proof.
  intros H. apply cat_inv in H as (S & V & _).
  unfold shape at 1 2, cat_shape in S.
  destruct (_ && _) eqn:E in S; [|discriminate]. b2p.
  assert (S0 : shape y = (size0 a, size1 a + size1 b, size2 a, size3 a))
    by congruence.
  split; [exact S0|]. split; [congruence|].
  intros n c i j _ _ _. rewrite V. split; intros Hc.
  - apply Nat.ltb_lt in Hc. now rewrite Hc.
  - replace (size1 a + c <? size1 a) with false
      by (symmetry; apply Nat.ltb_ge; lia).
    now replace (size1 a + c - size1 a) with c by lia.
Qed.

Lemma broadcast_spec self v y l :
  TowerRepresentation.broadcast_viewpoint self v = Some (y, l) ->
  spec_broadcast v (TowerRepresentation.r_dim self / 16) y.
Proof.
  intros H. unfold TowerRepresentation.broadcast_viewpoint in H.
  apply bind_inv in H as (v1 & l1 & l2 & H1 & H2 & ->).
  apply view_inv in H1 as (S1 & V1 & ->).
  apply repeat_inv in H2 as (S2 & V2 & ->).
  unfold shape2 in S1. rewrite view_shape_rows in S1.
  destruct (1 <=? rows v) eqn:Er; [|discriminate]. b2p.
  assert (S1' : shape v1 = (rows v, cols v, 1, 1)) by congruence. clear S1.
  rewrite S1' in S2. cbn -[Nat.div Nat.mul] in S2.
  rewrite !Nat.mul_1_r, !Nat.mul_1_l in S2.
  apply shape_sizes in S1' as (Z0 & Z1 & Z2 & Z3).
  split; [exact S2|].
  intros n c i j Hn Hc Hi Hj. rewrite V2, Z0, Z1, Z2, Z3, V1.
  rewrite !Nat.mod_small by assumption. apply flat_row_major; lia.
Qed.

Lemma avg_pool_spec p z r l :
  pool_kernel p = size2 z -> pool_kernel p = size3 z ->
  avg_pool2d p z = Some (r, l) -> spec_mean z r.
Proof.
  intros E2 E3 H. apply avg_pool2d_inv in H as (S & V & _).
  unfold shape at 1, avg_pool_shape in S.
  destruct (_ && _) eqn:E in S; [|discriminate]. b2p.
  assert (S0 : shape r = (size0 z, size1 z,
                          (size2 z - pool_kernel p) / pool_kernel p + 1,
                          (size3 z - pool_kernel p) / pool_kernel p + 1))
    by congruence.
  clear S. rewrite <- E2 in S0 at 1. rewrite <- E3 in S0 at 1.
  rewrite !Nat.sub_diag, !Nat.Div0.div_0_l in S0.
  split; [exact S0|].
  intros n c _ _. rewrite V. unfold avg_pool_val. cbv zeta.
  rewrite <- E2 at 1 2. rewrite <- E3. reflexivity.
Qed.

End TowerLayers.

(** X4: what a successful tower forward pass computes, tensor by tensor.
    The viewpoint is broadcast over an (r_dim/16) x (r_dim/16) grid.  The
    image goes through conv1 (stride 2), whose output feeds both conv2
    (stride 2) and conv3 (3 x 3, padded) followed by conv4 (stride 2); the
    two branches are added element by element.  The sum and the broadcast
    viewpoint are concatenated along the channels.  The merged tensor feeds
    both conv5 and conv6 followed by conv7 (all 3 x 3, padded), added
    element by element; conv8 (1 x 1) follows.  Each of the eight layers
    returns the rectified-linear image of its convolution.  The result is
    conv8's output, or its spatial mean when [pool] is set.  The run performs
    these operations in this order and no others. *)
Theorem tower_operations n vd k p th x v r tr :
  TowerRepresentation.forward (TowerRepresentation.init n vd k p th) x v
  = Some (r, tr) ->
  (exists v2 skip_in skip_out x3 a4 x1 m s5 x6 a7 x2 z,
      spec_broadcast v (k / 16) v2
      /\ spec_layer (th 1) n k 2 x skip_in
      /\ spec_layer (th 2) k k 2 skip_in skip_out
      /\ spec_same_layer (th 3) k (k / 2) skip_in x3
      /\ spec_layer (th 4) (k / 2) k 2 x3 a4
      /\ spec_sum a4 skip_out x1
      /\ spec_cat x1 v2 m
      /\ spec_same_layer (th 5) (k + vd) k m s5
      /\ spec_same_layer (th 6) (k + vd) (k / 2) m x6
      /\ spec_same_layer (th 7) (k / 2) k x6 a7
      /\ spec_sum a7 s5 x2
      /\ spec_layer (th 8) k k 1 x2 z
      /\ (if p then spec_mean z r else r = z))
  /\ tr = [OpView; OpRepeat;
           OpConv n k 2 2 0; OpRelu; OpConv k k 2 2 0; OpRelu;
           OpConv k (k / 2) 3 1 1; OpRelu; OpConv (k / 2) k 2 2 0; OpRelu; OpAdd;
           OpCat;
           OpConv (k + vd) k 3 1 1; OpRelu; OpConv (k + vd) (k / 2) 3 1 1; OpRelu;
           OpConv (k / 2) k 3 1 1; OpRelu; OpAdd;
           OpConv k k 1 1 0; OpRelu]
          ++ (if p then [OpAvgPool (k / 16)] else [])
  /\ convs tr = [(2, k); (2, k); (1, k / 2); (2, k);
                 (1, k); (1, k / 2); (1, k); (1, k)]
  /\ relu_after_each_conv tr = true
  /\ length (filter is_add tr) = 2
  /\ existsb is_pool tr = p.
Proof.
  intros H. split.
  2:{ apply tower_trace in H. subst tr. destruct p; now repeat split. }
  unfold TowerRepresentation.forward in H.
  apply bind_inv in H as (m & la1 & lb1 & Hm & H & _).
  apply bind_inv in H as (x2 & la2 & lb2 & Hb2 & Hh & _).
  unfold TowerRepresentation.merged in Hm.
  apply bind_inv in Hm as (v2 & la3 & lb3 & Hv & Hm & _).
  apply bind_inv in Hm as (x1 & la4 & lb4 & Hb1 & Hcat & _).
  unfold TowerRepresentation.block1 in Hb1.
  apply bind_inv in Hb1 as (skip_in & la5 & lb5 & E1 & Hb1 & _).
  apply bind_inv in Hb1 as (skip_out & la6 & lb6 & E2 & Hb1 & _).
  apply bind_inv in Hb1 as (x3 & la7 & lb7 & E3 & Hb1 & _).
  apply bind_inv in Hb1 as (a4 & la8 & lb8 & E4 & Hadd1 & _).
  unfold TowerRepresentation.block2 in Hb2.
  apply bind_inv in Hb2 as (s5 & la9 & lb9 & E5 & Hb2 & _).
  apply bind_inv in Hb2 as (x6 & la10 & lb10 & E6 & Hb2 & _).
  apply bind_inv in Hb2 as (a7 & la11 & lb11 & E7 & Hadd2 & _).
  unfold TowerRepresentation.head in Hh.
  apply bind_inv in Hh as (z & la12 & lb12 & E8 & Hh & _).
  apply broadcast_spec in Hv.
  cbn [TowerRepresentation.conv1 TowerRepresentation.conv2
       TowerRepresentation.conv3 TowerRepresentation.conv4
       TowerRepresentation.conv5 TowerRepresentation.conv6
       TowerRepresentation.conv7 TowerRepresentation.conv8
       TowerRepresentation.pool TowerRepresentation.avgpool
       TowerRepresentation.r_dim TowerRepresentation.init] in *.
  apply conv_relu_strided_spec in E1, E2, E4, E8.
  apply conv_relu_same_spec in E3, E5, E6, E7.
  apply cat_spec in Hcat.
  assert (S1 : shape skip_out = shape a4).
  { destruct E2 as (_ & S2 & _), E3 as (_ & S3 & _), E4 as (_ & S4 & _).
    apply shape_sizes in S3 as (Z0 & _ & Z2 & Z3).
    rewrite Z0, Z2, Z3 in S4. congruence. }
  apply (add_spec _ _ _ _ S1) in Hadd1.
  assert (S2 : shape s5 = shape a7).
  { destruct E5 as (_ & S5 & _), E6 as (_ & S6 & _), E7 as (_ & S7 & _).
    apply shape_sizes in S6 as (Z0 & _ & Z2 & Z3).
    rewrite Z0, Z2, Z3 in S7. congruence. }
  apply (add_spec _ _ _ _ S2) in Hadd2.
  exists v2, skip_in, skip_out, x3, a4, x1, m, s5, x6, a7, x2, z.
  repeat (split; [assumption|]).
  destruct p.
  - assert (Hk : k / 16 = size2 z /\ k / 16 = size3 z).
    { destruct Hv as (Sv & _), Hcat as (Sm & Sc & _), E7 as (_ & S7 & _),
        E6 as (_ & S6 & _), Hadd2 as (Sa & _ & _), E8 as (_ & S8 & _).
      apply shape_sizes in Sv as (_ & _ & V2 & V3).
      apply shape_sizes in Sm as (_ & _ & M2 & M3).
      apply shape_sizes in S6 as (_ & _ & X2 & X3).
      apply shape_sizes in S7 as (_ & _ & A2 & A3).
      apply shape_sizes in S8 as (_ & _ & Z2 & Z3).
      pose proof Sa as Sa'. symmetry in Sa'.
      apply shape_sizes in Sa' as (_ & _ & Y2 & Y3).
      rewrite Nat.div_1_r in Z2, Z3.
      injection Sc as _ C2 C3. lia. }
    destruct Hk as (K2 & K3).
    exact (avg_pool_spec (mkAvgPool2d (k / 16)) z r _ K2 K3 Hh).
  - now apply ret_inv in Hh as (-> & _).
Qed.

Lemma tower_operations_witness :
  exists r tr,
    TowerRepresentation.forward (TowerRepresentation.init 3 7 32 true ones)
      (full (1, 3, 8, 8) 0) (full2 (1, 7) 0) = Some (r, tr)
    /\ (exists v2 skip_in skip_out x3 a4 x1 m s5 x6 a7 x2 z,
           spec_broadcast (full2 (1, 7) 0) (32 / 16) v2
           /\ spec_layer (ones 1) 3 32 2 (full (1, 3, 8, 8) 0) skip_in
           /\ spec_layer (ones 2) 32 32 2 skip_in skip_out
           /\ spec_same_layer (ones 3) 32 (32 / 2) skip_in x3
           /\ spec_layer (ones 4) (32 / 2) 32 2 x3 a4
           /\ spec_sum a4 skip_out x1
           /\ spec_cat x1 v2 m
           /\ spec_same_layer (ones 5) (32 + 7) 32 m s5
           /\ spec_same_layer (ones 6) (32 + 7) (32 / 2) m x6
           /\ spec_same_layer (ones 7) (32 / 2) 32 x6 a7
           /\ spec_sum a7 s5 x2
           /\ spec_layer (ones 8) 32 32 1 x2 z
           /\ spec_mean z r)
    /\ convs tr = [(2, 32); (2, 32); (1, 32 / 2); (2, 32);
                   (1, 32); (1, 32 / 2); (1, 32); (1, 32)]
    /\ relu_after_each_conv tr = true
    /\ length (filter is_add tr) = 2
    /\ existsb is_pool tr = true.
Proof.
  destruct (tower_forward_ok 3 7 32 true ones (full (1, 3, 8, 8) 0)
              (full2 (1, 7) 0) eq_refl) as (r & tr & E & _).
  destruct (tower_operations 3 7 32 true ones _ _ r tr E)
    as (Hl & _ & Hc & Hr & Ha & Hp).
  exists r, tr. split; [exact E|]. split; [exact Hl|].
  split; [exact Hc|]. split; [exact Hr|]. split; [exact Ha|exact Hp].
Defined.

Section Slicing.

Lemma teq_trans a b c : teq a b -> teq b c -> teq a c.
Proof.
  intros Hab Hbc. destruct (teq_sizes _ _ Hab) as (E0 & E1 & E2 & E3).
  destruct Hab as [S1 V1], Hbc as [S2 V2]. split; [congruence|].
  intros n d i j Hn Hd Hi Hj. rewrite V1 by assumption.
  apply V2; congruence.
Qed.

Lemma Meq_Some m' m y l :
  Meq m' m -> m = Some (y, l) -> exists y', m' = Some (y', l) /\ teq y' y.
Proof.
  intros H ->. unfold Meq in H. destruct m' as [[y' l']|]; [|contradiction].
  destruct H as [H ->]. now exists y'.
Qed.

Lemma sliced_refl b x : b < size0 x -> sliced b (select b x) x.
Proof. intros H. split; [exact H | apply teq_refl]. Qed.

Lemma Mslice_bind b (m' m : M Tensor) (f' f : Tensor -> M Tensor) :
  Mslice b m' m ->
  (forall a la a', m = Some (a, la) -> sliced b a' a -> Mslice b (f' a') (f a)) ->
  Mslice b (bind m' f') (bind m f).
Proof.
  intros Hm Hf y l H.
  apply bind_inv in H as (a & l1 & l2 & Ha & Hfa & ->).
  destruct (Hm a l1 Ha) as (a' & Ea & Sa).
  destruct (Hf a l1 a' Ha Sa y l2 Hfa) as (y' & Ey & Sy).
  exists y'. split; [|exact Sy]. unfold bind. now rewrite Ea, Ey.
Qed.

(** What an operation returns on one element of the batch, from what it
    returns on the batch. *)
Lemma select_result b y n c h w F f :
  shape y = (n, c, h, w) -> at4 y = F ->
  (forall d i j, d < c -> i < h -> j < w -> f 0 d i j = F (b + 0) d i j) ->
  teq (tensor_of (1, c, h, w) f) (select b y).
Proof.
  intros Hs Hv Hf. apply shape_sizes in Hs as (_ & <- & <- & <-).
  split; [reflexivity|]. intros k d i j Hk Hd Hi Hj. cbn in *.
  assert (k = 0) as -> by lia. now rewrite Hf, Hv.
Qed.

Lemma via_select b (op' opx : M Tensor) y l y0 :
  Meq op' opx -> opx = Some (y0, l) -> teq y0 (select b y) -> b < size0 y ->
  exists y', op' = Some (y', l) /\ sliced b y' y.
Proof.
  intros HM E Ht Hb. destruct (Meq_Some _ _ _ _ HM E) as (y' & E' & Ht').
  exists y'. split; [exact E'|]. split; [exact Hb|]. eapply teq_trans; eassumption.
Qed.

Lemma conv2d_slice b m x' x :
  sliced b x' x -> Mslice b (conv2d m x') (conv2d m x).
Proof.
  intros [Hb Hx] y l H. apply conv2d_inv in H as (S & V & ->).
  unfold shape at 1, conv2d_shape in S.
  destruct (_ && _) eqn:E in S; [|discriminate].
  assert (S0 : shape y = (size0 x, out_channels m,
                          conv_out (size2 x) (kernel_size m) (stride m) (padding m),
                          conv_out (size3 x) (kernel_size m) (stride m) (padding m)))
    by congruence.
  clear S.
  eapply via_select with (opx := conv2d m (select b x)).
  - apply conv2d_ext; [apply conv_eq_refl | exact Hx].
  - unfold conv2d, conv2d_fn, conv2d_shape, shape, select.
    cbn [size0 size1 size2 size3]. rewrite E. reflexivity.
  - eapply select_result; [exact S0 | exact V |]. reflexivity.
  - apply shape_sizes in S0. destruct S0 as (-> & _). exact Hb.
Qed.

Lemma relu_slice b x' x : sliced b x' x -> Mslice b (relu x') (relu x).
Proof.
  intros [Hb Hx] y l H. apply relu_inv in H as (S & V & ->).
  eapply via_select with (opx := relu (select b x)).
  - now apply relu_ext.
  - reflexivity.
  - eapply (select_result b y); [exact S | exact V |]. reflexivity.
  - apply shape_sizes in S. destruct S as (-> & _). exact Hb.
Qed.

Lemma conv_relu_slice b m x' x :
  sliced b x' x -> Mslice b (conv_relu m x') (conv_relu m x).
Proof.
  intros H. unfold conv_relu. apply Mslice_bind; [now apply conv2d_slice|].
  intros a la a' _ Ha. now apply relu_slice.
Qed.

Lemma ret_slice b x' x : sliced b x' x -> Mslice b (ret x') (ret x).
Proof. intros H y l [= <- <-]. now exists x'. Qed.

Lemma cat_slice b a' a c' c :
  sliced b a' a -> sliced b c' c -> Mslice b (cat a' c') (cat a c).
Proof.
  intros [Hb Ha] [_ Hc] y l H. apply cat_inv in H as (S & V & ->).
  unfold shape at 1 2, cat_shape in S.
  destruct (_ && _) eqn:E in S; [|discriminate].
  assert (S0 : shape y = (size0 a, size1 a + size1 c, size2 a, size3 a))
    by congruence.
  clear S. b2p.
  eapply via_select with (opx := cat (select b a) (select b c)).
  - now apply cat_ext.
  - unfold cat, cat_fn, cat_shape, shape, select.
    cbn [size0 size1 size2 size3].
    replace (size2 a =? size2 c) with true by (symmetry; now apply Nat.eqb_eq).
    replace (size3 a =? size3 c) with true by (symmetry; now apply Nat.eqb_eq).
    reflexivity.
  - eapply select_result; [exact S0 | exact V |]. reflexivity.
  - apply shape_sizes in S0. destruct S0 as (-> & _). exact Hb.
Qed.

Lemma bdim_same d : bdim d d = Some d.
Proof. unfold bdim. now rewrite Nat.eqb_refl. Qed.

Lemma add_slice b a' a c' c :
  sliced b a' a -> sliced b c' c -> size0 a = size0 c ->
  Mslice b (add a' c') (add a c).
Proof.
  intros [Hb Ha] [_ Hc] E0 y l H. apply add_inv in H as (S & V & ->).
  unfold shape at 1 2, add_shape in S. rewrite <- E0, bdim_same in S.
  cbn [obind] in S.
  destruct (bdim (size1 a) (size1 c)) as [d1|] eqn:D1; [|discriminate].
  destruct (bdim (size2 a) (size2 c)) as [d2|] eqn:D2; [|discriminate].
  destruct (bdim (size3 a) (size3 c)) as [d3|] eqn:D3; [|discriminate].
  cbn [obind] in S.
  assert (S0 : shape y = (size0 a, d1, d2, d3)) by congruence. clear S.
  eapply via_select with (opx := add (select b a) (select b c)).
  - now apply add_ext.
  - unfold add, add_fn, add_shape, shape, select.
    cbn [size0 size1 size2 size3]. rewrite bdim_same, D1, D2, D3. reflexivity.
  - eapply select_result; [exact S0 | exact V |].
    intros d i j _ _ _. unfold bat, select. cbn [size0 size1 size2 size3 at4].
    rewrite <- E0.
    replace (bidx (size0 a) (b + 0)) with (b + bidx 1 0); [reflexivity|].
    unfold bidx. cbn [Nat.eqb]. destruct (size0 a =? 1) eqn:E; b2p; lia.
  - apply shape_sizes in S0. destruct S0 as (-> & _). exact Hb.
Qed.

Lemma avg_pool2d_slice b p x' x :
  sliced b x' x -> Mslice b (avg_pool2d p x') (avg_pool2d p x).
Proof.
  intros [Hb Hx] y l H. apply avg_pool2d_inv in H as (S & V & ->).
  unfold shape at 1, avg_pool_shape in S.
  destruct (_ && _) eqn:E in S; [|discriminate].
  assert (S0 : shape y = (size0 x, size1 x,
                          (size2 x - pool_kernel p) / pool_kernel p + 1,
                          (size3 x - pool_kernel p) / pool_kernel p + 1))
    by congruence.
  clear S.
  eapply via_select with (opx := avg_pool2d p (select b x)).
  - now apply avg_pool2d_ext.
  - unfold avg_pool2d, avg_pool2d_fn, avg_pool_shape, shape, select.
    cbn [size0 size1 size2 size3]. rewrite E. reflexivity.
  - eapply select_result; [exact S0 | exact V |]. reflexivity.
  - apply shape_sizes in S0. destruct S0 as (-> & _). exact Hb.
Qed.

Lemma repeat_slice b r2 r3 x' x :
  sliced b x' x ->
  Mslice b (repeat (1, 1, r2, r3) x') (repeat (1, 1, r2, r3) x).
Proof.
  intros [Hb Hx] y l H. apply repeat_inv in H as (S & V & ->).
  unfold shape at 2, repeat_shape in S.
  eapply via_select with (opx := repeat (1, 1, r2, r3) (select b x)).
  - now apply repeat_ext.
  - reflexivity.
  - unfold repeat_shape, shape, select. cbn [size0 size1 size2 size3].
    rewrite Nat.mul_1_l.
    eapply (select_result b y); [exact S | exact V |].
    intros d i j _ _ _. cbn [at4].
    rewrite Nat.mod_1_r, !Nat.add_0_r, (Nat.mod_small b) by exact Hb.
    reflexivity.
  - apply shape_sizes in S. destruct S as (-> & _). lia.
Qed.

Lemma view_slice b v :
  b < rows v -> Mslice b (view 1 (select2 b v)) (view (rows v) v).
Proof.
  intros Hb y l H. apply view_inv in H as (S & V & ->).
  unfold shape2 in S. rewrite view_shape_rows in S.
  destruct (1 <=? rows v) eqn:E; [|discriminate].
  assert (S0 : shape y = (rows v, cols v, 1, 1)) by congruence. clear S.
  exists (tensor_of (1, cols v, 1, 1)
            (fun q c _ _ : nat =>
               flat (select2 b v)
                    (q * (rows (select2 b v) * cols (select2 b v) / 1) + c))).
  split.
  - unfold view, view_fn, view_shape, shape2, select2. cbn [rows cols fst snd].
    rewrite Nat.mul_1_l, Nat.div_1_r, Nat.mod_1_r. reflexivity.
  - split; [apply shape_sizes in S0; destruct S0 as (-> & _); exact Hb|].
    eapply select_result; [exact S0 | exact V |].
    intros d i j Hd _ _. cbn [rows cols select2].
    rewrite Nat.mul_1_l, Nat.div_1_r, Nat.mul_0_l, Nat.add_0_l, Nat.add_0_r.
    rewrite flat_row_major by lia.
    unfold flat, select2. cbn [cols at2].
    now rewrite Nat.div_small, Nat.mod_small, Nat.add_0_r.
Qed.

End Slicing.

(** A convolution keeps the batch size. *)
Lemma conv_relu_size0 m x y l :
  conv_relu m x = Some (y, l) -> size0 y = size0 x.
Proof.
  intros H. apply conv_relu_shape in H as (S & _).
  now apply shape_sizes in S as (-> & _).
Qed.

Ltac size0_facts :=
  repeat match goal with
         | H : conv_relu _ _ = Some _ |- _ => apply conv_relu_size0 in H
         end.

(** One step of a batch-element proof, layer by layer. *)
Ltac slice_step :=
  first [ assumption
        | apply sliced_refl; assumption
        | apply view_slice; assumption
        | apply conv_relu_slice
        | apply cat_slice
        | apply repeat_slice
        | apply avg_pool2d_slice
        | apply ret_slice
        | apply add_slice; [assumption | assumption | size0_facts; congruence]
        | apply Mslice_bind; [|intros ? ? ? ? ?] ].

(** X11: the tower encodes every element of a batch on its own: running it
    on element b alone succeeds with the same operations and returns element
    b of the batched result. *)
Theorem tower_batch_element n vd k p th x v r tr b :
  let self := TowerRepresentation.init n vd k p th in
  TowerRepresentation.forward self x v = Some (r, tr) ->
  b < size0 x ->
  exists r',
    TowerRepresentation.forward self (select b x) (select2 b v) = Some (r', tr)
    /\ teq r' (select b r).
Proof.
  intros self H Hb.
  pose proof (tower_forward_run _ _ _ _ _ _ _ _ _ H) as [Hok _].
  unfold tower_ok, shape, shape2 in Hok. b2p.
  assert (Hbv : b < rows v) by lia.
  assert (HM : Mslice b (TowerRepresentation.forward self (select b x) (select2 b v))
                        (TowerRepresentation.forward self x v)).
  { unfold TowerRepresentation.forward, TowerRepresentation.merged,
      TowerRepresentation.broadcast_viewpoint, TowerRepresentation.block1,
      TowerRepresentation.block2, TowerRepresentation.head.
    repeat slice_step.
    destruct (TowerRepresentation.pool self); repeat slice_step. }
  destruct (HM r tr H) as (r' & E & _ & Ht). now exists r'.
Qed.

(** X12: the pyramid, given one viewpoint row per image, encodes every
    element of a batch on its own: running it on element b alone succeeds
    with the same operations and returns element b of the batched result. *)
Theorem pyramid_batch_element self x v r tr b :
  rows v = size0 x ->
  PyramidRepresentation.forward self x v = Some (r, tr) ->
  b < size0 x ->
  exists r',
    PyramidRepresentation.forward self (select b x) (select2 b v) = Some (r', tr)
    /\ teq r' (select b r).
Proof.
  intros Hr H Hb.
  assert (Hbv : b < rows v) by lia.
  assert (HM : Mslice b (PyramidRepresentation.forward self (select b x) (select2 b v))
                        (PyramidRepresentation.forward self x v)).
  { unfold PyramidRepresentation.forward, shape, select.
    cbn [size0 size1 size2 size3]. cbv iota beta. rewrite <- Hr.
    repeat slice_step. }
  destruct (HM r tr H) as (r' & E & _ & Ht). now exists r'.
Qed.

Lemma tower_batch_element_witness :
  let self := TowerRepresentation.init 3 7 32 true ones in
  let x := mkTensor 2 3 8 8 (fun n _ _ _ => inject_Z (Z.of_nat n)) in
  let v := mkTensor2 2 7 (fun n c => inject_Z (Z.of_nat (n + c))) in
  exists r tr r',
    TowerRepresentation.forward self x v = Some (r, tr)
    /\ TowerRepresentation.forward self (select 1 x) (select2 1 v) = Some (r', tr)
    /\ teq r' (select 1 r).
Proof.
  intros self x v.
  destruct (tower_forward_ok 3 7 32 true ones x v eq_refl) as (r & tr & E & _).
  assert (H1 : 1 < size0 x) by (apply Nat.ltb_lt; reflexivity).
  destruct (tower_batch_element 3 7 32 true ones x v r tr 1 E H1) as (r' & E' & Ht).
  exists r, tr, r'. split; [exact E|]. split; [exact E'|exact Ht].
Defined.

Lemma pyramid_batch_element_witness :
  let self := PyramidRepresentation.init 3 7 32 ones in
  let x := mkTensor 2 3 64 64 (fun n _ _ _ => inject_Z (Z.of_nat n)) in
  let v := mkTensor2 2 7 (fun n c => inject_Z (Z.of_nat (n + c))) in
  exists r tr r',
    PyramidRepresentation.forward self x v = Some (r, tr)
    /\ PyramidRepresentation.forward self (select 1 x) (select2 1 v) = Some (r', tr)
    /\ teq r' (select 1 r).
Proof.
  intros self x v.
  destruct (pyramid_forward_ok 3 7 32 ones x v eq_refl) as (r & tr & E & _).
  assert (H1 : 1 < size0 x) by (apply Nat.ltb_lt; reflexivity).
  destruct (pyramid_batch_element self x v r tr 1 eq_refl E H1) as (r' & E' & Ht).
  exists r, tr, r'. split; [exact E|]. split; [exact E'|exact Ht].
Defined.

Lemma tower_residual_sums_witness :
  let self := TowerRepresentation.init 3 7 32 true ones in
  exists y l skip_out a,
    TowerRepresentation.block1 self (full (1, 3, 8, 8) 1) = Some (y, l)
    /\ shape a = shape y /\ shape skip_out = shape y
    /\ at4 y 0 4 1 1 = (at4 a 0 4 1 1 + at4 skip_out 0 4 1 1)%Q.
Proof.
  intros self.
  destruct (shape_of_Some (TowerRepresentation.block1 self (full (1, 3, 8, 8) 1))
              (1, 32, 2, 2)) as (y & l & E & Sy).
  { rewrite tower_block1_sim. reflexivity. }
  destruct (proj1 (tower_residual_sums 3 7 32 true ones) _ y l E)
    as (skip_in & l0 & skip_out & l1 & x3 & l2 & a & l3 & _ & _ & _ & _ &
        Sa & Ss & Hv).
  exists y, l, skip_out, a. split; [exact E|]. split; [exact Sa|].
  split; [exact Ss|].
  apply shape_sizes in Sy as (Y0 & Y1 & Y2 & Y3).
  apply Hv.
  - rewrite Y0. apply Nat.ltb_lt. reflexivity.
  - rewrite Y1. apply Nat.ltb_lt. reflexivity.
  - rewrite Y2. apply Nat.ltb_lt. reflexivity.
  - rewrite Y3. apply Nat.ltb_lt. reflexivity.
Defined.

Section Cropping.

Lemma Mcrop_bind i0 j0 h w i1 j1 h1 w1 (m' m : M Tensor) (f' f : Tensor -> M Tensor) :
  Mcrop i0 j0 h w m' m ->
  (forall a la a', m = Some (a, la) -> cropped i0 j0 h w a' a ->
                   Mcrop i1 j1 h1 w1 (f' a') (f a)) ->
  Mcrop i1 j1 h1 w1 (bind m' f') (bind m f).
Proof.
  intros Hm Hf y l H.
  apply bind_inv in H as (a & l1 & l2 & Ha & Hfa & ->).
  destruct (Hm a l1 Ha) as (a' & Ea & Sa).
  destruct (Hf a l1 a' Ha Sa y l2 Hfa) as (y' & Ey & Sy).
  exists y'. split; [|exact Sy]. unfold bind. now rewrite Ea, Ey.
Qed.

Lemma crop_result i0 j0 h w y n c H W F f :
  shape y = (n, c, H, W) -> at4 y = F ->
  (forall b d i j, b < n -> d < c -> i < h -> j < w ->
                   f b d i j = F b d (i0 + i) (j0 + j)) ->
  teq (tensor_of (n, c, h, w) f) (crop i0 j0 h w y).
Proof.
  intros Hs Hv Hf. apply shape_sizes in Hs as (<- & <- & _ & _).
  split; [reflexivity|]. intros b d i j Hb Hd Hi Hj. cbn in *.
  now rewrite Hf, Hv.
Qed.

Lemma via_crop i0 j0 h w (op' opx : M Tensor) y l y0 :
  Meq op' opx -> opx = Some (y0, l) -> teq y0 (crop i0 j0 h w y) ->
  i0 + h <= size2 y -> j0 + w <= size3 y ->
  exists y', op' = Some (y', l) /\ cropped i0 j0 h w y' y.
Proof.
  intros HM E Ht H2 H3. destruct (Meq_Some _ _ _ _ HM E) as (y' & E' & Ht').
  exists y'. split; [exact E'|]. split; [exact H2|]. split; [exact H3|].
  eapply teq_trans; eassumption.
Qed.

Lemma relu_crop i0 j0 h w x' x :
  cropped i0 j0 h w x' x -> Mcrop i0 j0 h w (relu x') (relu x).
Proof.
  intros (H2 & H3 & Hx) y l H. apply relu_inv in H as (S & V & ->).
  pose proof S as S'. apply shape_sizes in S' as (_ & _ & Y2 & Y3).
  eapply via_crop with (opx := relu (crop i0 j0 h w x)).
  - now apply relu_ext.
  - reflexivity.
  - eapply (crop_result i0 j0 h w y); [exact S | exact V |]. reflexivity.
  - now rewrite Y2.
  - now rewrite Y3.
Qed.

(** Extents under a layer whose kernel equals its stride. *)
Lemma conv_out_tile s h : 1 <= s -> 1 <= h -> conv_out (s * h) s s 0 = h.
Proof.
  intros Hs Hh. unfold conv_out.
  replace (s * h + 2 * 0 - s) with ((h - 1) * s) by nia.
  rewrite Nat.div_mul by lia. lia.
Qed.

Lemma conv_out_tile_bound s i1 h H :
  1 <= s -> 1 <= h -> s * i1 + s * h <= H -> i1 + h <= conv_out H s s 0.
Proof.
  intros Hs Hh Hb. unfold conv_out.
  assert (i1 + h - 1 <= (H + 2 * 0 - s) / s); [|lia].
  apply Nat.div_le_lower_bound; [lia|nia].
Qed.

Lemma conv2d_crop m s i1 j1 h w x' x :
  kernel_size m = s -> stride m = s -> padding m = 0 -> 1 <= h -> 1 <= w ->
  cropped (s * i1) (s * j1) (s * h) (s * w) x' x ->
  Mcrop i1 j1 h w (conv2d m x') (conv2d m x).
Proof.
  intros Ek Es Ep Hh Hw (H2 & H3 & Hx) y l H.
  apply conv2d_inv in H as (S & V & ->).
  unfold shape at 1, conv2d_shape in S.
  destruct (_ && _) eqn:E in S; [|discriminate].
  assert (S0 : shape y = (size0 x, out_channels m,
                          conv_out (size2 x) (kernel_size m) (stride m) (padding m),
                          conv_out (size3 x) (kernel_size m) (stride m) (padding m)))
    by congruence.
  clear S. b2p. rewrite Ek, Es, Ep in *.
  assert (Hs1 : 1 <= s) by assumption.
  pose proof S0 as S0'. apply shape_sizes in S0' as (_ & _ & Y2 & Y3).
  eapply via_crop with (opx := conv2d m (crop (s * i1) (s * j1) (s * h) (s * w) x)).
  - apply conv2d_ext; [apply conv_eq_refl | exact Hx].
  - unfold conv2d, conv2d_fn, conv2d_shape, shape, crop.
    cbn [size0 size1 size2 size3]. rewrite Ek, Es, Ep.
    replace (size1 x =? in_channels m) with true
      by (symmetry; now apply Nat.eqb_eq).
    replace (1 <=? in_channels m) with true by (symmetry; now apply Nat.leb_le).
    replace (1 <=? out_channels m) with true by (symmetry; now apply Nat.leb_le).
    replace (1 <=? s) with true by (symmetry; now apply Nat.leb_le).
    replace (s <=? s * h + 2 * 0) with true by (symmetry; apply Nat.leb_le; nia).
    replace (s <=? s * w + 2 * 0) with true by (symmetry; apply Nat.leb_le; nia).
    cbn [andb]. rewrite !conv_out_tile by assumption. reflexivity.
  - eapply (crop_result i1 j1 h w y); [exact S0 | exact V |].
    intros b d i j Hb Hd Hi Hj. unfold conv2d_val. rewrite Ek, Es, Ep.
    f_equal. apply sum_n_ext. intros ci Hci.
    apply sum_n_ext. intros di Hdi. apply sum_n_ext. intros dj Hdj.
    f_equal. unfold padded, crop. cbn [size2 size3 at4].
    replace ((i1 + i) * s + di) with (s * i1 + (i * s + di)) by nia.
    replace ((j1 + j) * s + dj) with (s * j1 + (j * s + dj)) by nia.
    rewrite !Nat.sub_0_r, !Nat.add_0_r.
    replace (i * s + di <? s * h) with true by (symmetry; apply Nat.ltb_lt; nia).
    replace (j * s + dj <? s * w) with true by (symmetry; apply Nat.ltb_lt; nia).
    replace (s * i1 + (i * s + di) <? size2 x) with true
      by (symmetry; apply Nat.ltb_lt; nia).
    replace (s * j1 + (j * s + dj) <? size3 x) with true
      by (symmetry; apply Nat.ltb_lt; nia).
    reflexivity.
  - rewrite Y2. apply conv_out_tile_bound; assumption.
  - rewrite Y3. apply conv_out_tile_bound; assumption.
Qed.

Lemma conv_relu_crop m s i1 j1 h w x' x :
  kernel_size m = s -> stride m = s -> padding m = 0 -> 1 <= h -> 1 <= w ->
  cropped (s * i1) (s * j1) (s * h) (s * w) x' x ->
  Mcrop i1 j1 h w (conv_relu m x') (conv_relu m x).
Proof.
  intros Ek Es Ep Hh Hw Hx. unfold conv_relu.
  apply (Mcrop_bind i1 j1 h w); [now apply (conv2d_crop m s)|].
  intros a la a' _ Ha. now apply relu_crop.
Qed.

Lemma cat_crop i0 j0 h w a' a c' c :
  cropped i0 j0 h w a' a -> cropped i0 j0 h w c' c ->
  Mcrop i0 j0 h w (cat a' c') (cat a c).
Proof.
  intros (H2 & H3 & Ha) (_ & _ & Hc) y l H. apply cat_inv in H as (S & V & ->).
  unfold shape at 1 2, cat_shape in S.
  destruct (_ && _) eqn:E in S; [|discriminate].
  assert (S0 : shape y = (size0 a, size1 a + size1 c, size2 a, size3 a))
    by congruence.
  clear S. b2p.
  pose proof S0 as S0'. apply shape_sizes in S0' as (_ & _ & Y2 & Y3).
  eapply via_crop with (opx := cat (crop i0 j0 h w a) (crop i0 j0 h w c)).
  - now apply cat_ext.
  - unfold cat, cat_fn, cat_shape, shape, crop.
    cbn [size0 size1 size2 size3].
    replace (size0 a =? size0 c) with true by (symmetry; now apply Nat.eqb_eq).
    rewrite !Nat.eqb_refl. reflexivity.
  - eapply (crop_result i0 j0 h w y); [exact S0 | exact V |]. reflexivity.
  - now rewrite Y2.
  - now rewrite Y3.
Qed.

Lemma repeat_crop i0 j0 h w H W v1 :
  size2 v1 = 1 -> size3 v1 = 1 -> i0 + h <= H -> j0 + w <= W ->
  Mcrop i0 j0 h w (repeat (1, 1, h, w) v1) (repeat (1, 1, H, W) v1).
Proof.
  intros E2 E3 H2 H3 y l Hy. apply repeat_inv in Hy as (S & V & ->).
  unfold shape at 2, repeat_shape in S. rewrite E2, E3, !Nat.mul_1_l in S.
  pose proof S as S'. apply shape_sizes in S' as (_ & _ & Y2 & Y3).
  exists (tensor_of (size0 v1 * 1, size1 v1 * 1, h, w)
            (fun n c i j : nat =>
               at4 v1 (n mod size0 v1) (c mod size1 v1)
                      (i mod size2 v1) (j mod size3 v1))).
  split.
  - unfold repeat, repeat_fn, repeat_shape, shape.
    now rewrite E2, E3, !Nat.mul_1_l.
  - split; [now rewrite Y2|]. split; [now rewrite Y3|].
    eapply (crop_result i0 j0 h w y); [exact S | exact V |].
    intros b d i j _ _ _ _. now rewrite E2, E3, !Nat.mod_1_r.
Qed.

Lemma ret_crop i0 j0 h w x' x :
  cropped i0 j0 h w x' x -> Mcrop i0 j0 h w (ret x') (ret x).
Proof. intros H y l [= <- <-]. now exists x'. Qed.

Lemma cropped_refl i0 j0 h w x :
  i0 + h <= size2 x -> j0 + w <= size3 x ->
  cropped i0 j0 h w (crop i0 j0 h w x) x.
Proof. intros H2 H3. split; [exact H2|]. split; [exact H3 | apply teq_refl]. Qed.

Lemma cropped_eq i0 j0 h w i1 j1 a' a :
  i0 = i1 -> j0 = j1 -> cropped i0 j0 h w a' a -> cropped i1 j1 h w a' a.
Proof. now intros -> ->. Qed.

Lemma Mcrop_bind_same i1 j1 h1 w1 (m : M Tensor) (f' f : Tensor -> M Tensor) :
  (forall a la, m = Some (a, la) -> Mcrop i1 j1 h1 w1 (f' a) (f a)) ->
  Mcrop i1 j1 h1 w1 (bind m f') (bind m f).
Proof.
  intros Hf y l H.
  apply bind_inv in H as (a & l1 & l2 & Ha & Hfa & ->).
  destruct (Hf a l1 Ha y l2 Hfa) as (y' & Ey & Sy).
  exists y'. split; [|exact Sy]. unfold bind. now rewrite Ha, Ey.
Qed.

End Cropping.

(** X13: the pyramid encodes every 64 x 64 tile of the image on its own:
    every layer has its kernel equal to its stride and no padding, so running
    the pyramid on the tile at (64 i, 64 j) alone succeeds with the same
    operations and returns the single output pixel (i, j) of the full run. *)
Theorem pyramid_tile n vd k th x v r tr i j :
  let self := PyramidRepresentation.init n vd k th in
  PyramidRepresentation.forward self x v = Some (r, tr) ->
  i < size2 r -> j < size3 r ->
  exists r',
    PyramidRepresentation.forward self (crop (64 * i) (64 * j) 64 64 x) v
    = Some (r', tr)
    /\ teq r' (crop i j 1 1 r).
Proof.
  intros self H Hi Hj.
  pose proof (pyramid_output_shape _ _ _ _ _ _ _ _ H) as (Hs & _ & _).
  apply shape_sizes in Hs as (_ & _ & R2 & R3). rewrite R2 in Hi. rewrite R3 in Hj.
  assert (B2 : 2 * (32 * i) + 64 <= size2 x) by lia.
  assert (B3 : 2 * (32 * j) + 64 <= size3 x) by lia.
  replace (64 * i) with (2 * (32 * i)) by lia.
  replace (64 * j) with (2 * (32 * j)) by lia.
  assert (HM : Mcrop i j 1 1
                 (PyramidRepresentation.forward self
                    (crop (2 * (32 * i)) (2 * (32 * j)) 64 64 x) v)
                 (PyramidRepresentation.forward self x v)).
  { unfold PyramidRepresentation.forward, shape, crop.
    cbn [size0 size1 size2 size3]. cbv iota beta.
    fold (crop (2 * (32 * i)) (2 * (32 * j)) 64 64 x).
    apply Mcrop_bind_same. intros v1 lv Hv1.
    apply view_inv in Hv1 as (Sv & _ & _).
    assert (Z : size2 v1 = 1 /\ size3 v1 = 1).
    { unfold view_shape in Sv. destruct (_ =? 0) in Sv; [discriminate|].
      destruct (_ =? 0) in Sv; [|discriminate].
      injection Sv as _ _ <- <-. now split. }
    destruct Z as [Z2 Z3].
    apply (Mcrop_bind (2 * (32 * i)) (2 * (32 * j)) 64 64);
      [now apply repeat_crop|].
    intros v2 l2 v2' _ Hv2.
    apply (Mcrop_bind (2 * (32 * i)) (2 * (32 * j)) 64 64);
      [apply cat_crop; [now apply cropped_refl | exact Hv2]|].
    intros a1 la1 a1' _ Ha1.
    apply (Mcrop_bind (32 * i) (32 * j) 32 32).
    { apply (conv_relu_crop _ 2); try reflexivity; try lia. exact Ha1. }
    intros a2 la2 a2' _ Ha2.
    apply (Mcrop_bind (16 * i) (16 * j) 16 16).
    { apply (conv_relu_crop _ 2); try reflexivity; try lia.
      apply (cropped_eq (32 * i) (32 * j)); [lia|lia|exact Ha2]. }
    intros a3 la3 a3' _ Ha3.
    apply (Mcrop_bind (8 * i) (8 * j) 8 8).
    { apply (conv_relu_crop _ 2); try reflexivity; try lia.
      apply (cropped_eq (16 * i) (16 * j)); [lia|lia|exact Ha3]. }
    intros a4 la4 a4' _ Ha4.
    apply (Mcrop_bind i j 1 1).
    { apply (conv_relu_crop _ 8); try reflexivity; try lia. exact Ha4. }
    intros a5 la5 a5' _ Ha5. now apply ret_crop. }
  destruct (HM r tr H) as (r' & E & _ & _ & Ht). now exists r'.
Qed.


Lemma pyramid_tile_witness :
  let self := PyramidRepresentation.init 3 7 32 ones in
  let x := mkTensor 1 3 128 192
             (fun _ _ i j => inject_Z (Z.of_nat (i + j))) in
  let v := v_ramp 7 in
  exists r tr r',
    PyramidRepresentation.forward self x v = Some (r, tr)
    /\ PyramidRepresentation.forward self (crop (64 * 1) (64 * 2) 64 64 x) v
       = Some (r', tr)
    /\ teq r' (crop 1 2 1 1 r).
Proof.
  intros self x v.
  destruct (pyramid_forward_ok 3 7 32 ones x v eq_refl) as (r & tr & E & Hs).
  apply shape_sizes in Hs as (_ & _ & R2 & R3).
  assert (H1 : 1 < size2 r) by (rewrite R2; apply Nat.ltb_lt; reflexivity).
  assert (H2 : 2 < size3 r) by (rewrite R3; apply Nat.ltb_lt; reflexivity).
  destruct (pyramid_tile 3 7 32 ones x v r tr 1 2 E H1 H2) as (r' & E' & Ht).
  exists r, tr, r'. split; [exact E|]. split; [exact E'|exact Ht].
Defined.
